(** * Weather tracker: hooks and the OpenWeather client

    A shallow embedding of the logic of the weather-tracking front end:
    the temperature conversion of [useTemperatureUnit], the city list of
    [useCityList], the local-storage hooks [useLocalStorage] and
    [useLocalStorageWithExpiry], and, from [OpenWeatherApiService], the
    rate limiter [checkRateLimit], the retry loop [makeRequest], the
    transformer [transformCurrentWeather] and the in-flight request map of
    [getCurrentWeather].

    Conventions.  A JavaScript [number] is a rational ([Q]) where the code
    does arithmetic on measurements, and an integer ([Z]) where it is a
    count or a time in milliseconds.  A property that may be [undefined]
    is an [option].  A function that throws returns a sum or a dedicated
    outcome type.  Asynchronous code is cut at its [await]s into the pieces
    the event loop runs one after another. *)

From Stdlib Require Import QArith.
From stdpp Require Import gmap strings list pretty.

Local Open Scope Z_scope.

(** ** Text helpers shared by the modules *)

(** [prefix_of p s]: [s.startsWith(p)]. *)
Fixpoint prefix_of (p s : string) : bool :=
  match p, s with
  | EmptyString, _ => true
  | String a p', String b s' => if Ascii.eqb a b then prefix_of p' s' else false
  | String _ _, EmptyString => false
  end.

(** [includes sub s]: [s.includes(sub)]. *)
Fixpoint includes (sub s : string) : bool :=
  prefix_of sub s ||
  match s with
  | EmptyString => false
  | String _ s' => includes sub s'
  end.

Lemma prefix_of_app (p s : string) : prefix_of p (p +:+ s) = true.
Proof.
  induction p as [|a p IH]; simpl; [done|].
  by rewrite Ascii.eqb_refl.
Qed.

Lemma includes_app_r (sub a b : string) :
  includes sub b = true -> includes sub (a +:+ b) = true.
Proof.
  intros Hb. induction a as [|c a IH]; simpl; [done|].
  rewrite IH. apply orb_true_r.
Qed.

Lemma includes_app_l (sub a b : string) :
  includes sub a = true -> includes sub (a +:+ b) = true.
Proof.
  revert sub. induction a as [|c a IH]; intros sub; simpl.
  - destruct sub; simpl; [|done]. intros _. destruct b; done.
  - intros H. apply orb_true_iff in H as [H|H].
    + apply orb_true_iff. left.
      destruct sub as [|d sub]; [done|]. simpl in *.
      destruct (Ascii.eqb d c); [|done].
      clear IH. revert a H. induction sub as [|e sub IHs]; intros a H; [done|].
      destruct a as [|f a]; [done|]. simpl in *.
      destruct (Ascii.eqb e f); [|done]. by apply IHs.
    + rewrite (IH _ H). apply orb_true_r.
Qed.

(** ** Temperature conversion ([useTemperatureUnit]) *)

Module Temperature.

(** [type TemperatureUnit = "celsius" | "fahrenheit"]. *)
Inductive TemperatureUnit := celsius | fahrenheit.

#[global] Instance TemperatureUnit_eq_dec : EqDecision TemperatureUnit.
Proof. solve_decision. Defined.

(** [convertTemperature(temperature, fromUnit, toUnit)], over the
    rationals. *)
Definition convertTemperature (temperature : Q) (fromUnit toUnit : TemperatureUnit) : Q :=
  if decide (fromUnit = toUnit) then temperature
  else if decide (fromUnit = celsius /\ toUnit = fahrenheit)
       then ((temperature * 9) / 5 + 32)%Q
  else if decide (fromUnit = fahrenheit /\ toUnit = celsius)
       then (((temperature - 32) * 5) / 9)%Q
  else temperature.

Example convert_100C : Qred (convertTemperature 100 celsius fahrenheit) = 212%Q.
Proof. reflexivity. Qed.

Example convert_32F : Qred (convertTemperature 32 fahrenheit celsius) = 0%Q.
Proof. reflexivity. Qed.

(** C10. Converting between equal units returns the temperature itself,
    and converting from celsius to fahrenheit and back returns a rational
    equal to the temperature started from: the round trip is exact over
    the rationals. *)
Theorem convertTemperature_identity_and_round_trip :
  (forall (t : Q) (u : TemperatureUnit), convertTemperature t u u = t) /\
  (forall t : Q,
     (convertTemperature (convertTemperature t celsius fahrenheit)
                         fahrenheit celsius == t)%Q).
Proof.
  split.
  - intros t u. unfold convertTemperature. by rewrite decide_True.
  - intros t. unfold convertTemperature. simpl. field.
Qed.

End Temperature.

(** ** The city list ([useCityList]) *)

Module CityList.

Record Coordinates := { lat : Q; lon : Q }.

(** [interface City]; the free-form [metadata] object, which the hook
    never reads, is left out. *)
Record City := {
  id : string;
  name : string;
  country : string;
  state : option string;
  coordinates : Coordinates;
  timezone : option string;
  population : option Z;
  elevation : option Q;
  addedAt : option Z;
  isFavorite : option bool;
}.

(** [{ ...city, addedAt: Date.now() }]. *)
Definition withTimestamp (city : City) (now : Z) : City :=
  {| id := id city; name := name city; country := country city;
     state := state city; coordinates := coordinates city;
     timezone := timezone city; population := population city;
     elevation := elevation city; addedAt := Some now;
     isFavorite := isFavorite city |}.

(** [UseCityListOptions]: the limit, and which callbacks were passed. *)
Record Options := {
  maxCities : option Z;
  has_onCityAdded : bool;
  has_onError : bool;
}.

(** [const { maxCities = 20, ... } = options]. *)
Definition effective_maxCities (o : Options) : Z := default 20 (maxCities o).

(** A call of one of the option callbacks. *)
Inductive Callback :=
| onCityAdded (city : City)
| onError (message : string).

(** What one render of the hook holds: the list in React state (the
    [storedValue] of [useLocalStorage("userCities", [])]), the list that
    local storage holds under ["userCities"] once parsed, the two flags,
    and the callbacks called so far, latest first.  [quota] is the
    browser's side of a write: whether [localStorage.setItem] takes the
    list, or throws because the quota is exceeded or storage is
    disabled. *)
Record HookState := {
  cities : list City;
  persisted : option (list City);
  isLoading : bool;
  error : option string;
  called : list Callback;
  quota : list City -> bool;
}.

(** What local storage holds after [setCities(newCities)], the
    [setValue] of [useLocalStorage]: the new list, unless [setItem]
    throws; [setValue] catches that, and storage keeps what it held. *)
Definition written (newCities : list City) (st : HookState) : option (list City) :=
  if quota st newCities then Some newCities else persisted st.

(** The promise [addCity] returns. *)
Inductive Outcome := Resolved | Rejected (message : string).

(** A string is truthy when it is not empty. *)
Definition truthy (s : string) : bool := negb (String.eqb s "").

(** The predicate given to [cities.find]. *)
Definition same_city (city c : City) : bool :=
  String.eqb (id c) (id city) ||
  (String.eqb (name c) (name city) && String.eqb (country c) (country city)).

(** The [try] block of [addCity]: the message of the error thrown, or
    the list to store and the stamped city. *)
Definition addCity_try (o : Options) (now : Z) (city : City) (cs : list City)
  : string + (list City * City) :=
  if negb (truthy (id city)) || negb (truthy (name city)) || negb (truthy (country city))
  then inl "Invalid city data: missing required fields"
  else match find (same_city city) cs with
       | Some _ => inl (name city +:+ " is already in your city list")
       | None =>
           if Z.of_nat (length cs) >=? effective_maxCities o
           then inl ("Maximum " +:+ pretty (effective_maxCities o) +:+ " cities allowed")
           else let cityWithTimestamp := withTimestamp city now in
                inr (cityWithTimestamp :: cs, cityWithTimestamp)
       end.

(** [addCity(city)] called at time [now] on the state of the current
    render: [setIsLoading(true); setError(null)], the [try] block, then
    the [catch] and [finally] clauses. *)
Definition addCity (o : Options) (now : Z) (city : City) (st : HookState)
  : Outcome * HookState :=
  match addCity_try o now city (cities st) with
  | inl message =>
      (Rejected message,
       {| cities := cities st;
          persisted := persisted st;
          isLoading := false;
          error := Some message;
          called := if has_onError o then onError message :: called st else called st;
          quota := quota st |})
  | inr (newCities, cityWithTimestamp) =>
      (Resolved,
       {| cities := newCities;
          persisted := written newCities st;
          isLoading := false;
          error := None;
          called := if has_onCityAdded o
                    then onCityAdded cityWithTimestamp :: called st else called st;
          quota := quota st |})
  end.

(** The required fields are all non-empty: the city passes the first
    check of [addCity]. *)
Definition valid (city : City) : Prop :=
  id city <> "" /\ name city <> "" /\ country city <> "".

(** *** Sample data *)

Definition sample (i n c : string) : City :=
  {| id := i; name := n; country := c; state := None;
     coordinates := {| lat := 0; lon := 0 |}; timezone := None;
     population := None; elevation := None; addedAt := None;
     isFavorite := None |}.

Definition no_options : Options :=
  {| maxCities := None; has_onCityAdded := false; has_onError := false |}.

(** A hook that holds [cs], in state and in storage, in a browser that
    takes every write. *)
Definition state_of (cs : list City) : HookState :=
  {| cities := cs; persisted := Some cs; isLoading := false; error := None;
     called := []; quota := fun _ => true |}.

(** *** Properties *)

Lemma truthy_true (s : string) : s <> "" -> truthy s = true.
Proof.
  intros H. unfold truthy. destruct (String.eqb_spec s "") as [E|E]; [congruence|reflexivity].
Qed.

Lemma addCity_try_valid (o : Options) (now : Z) (city : City) (cs : list City) :
  valid city ->
  addCity_try o now city cs =
  match find (same_city city) cs with
  | Some _ => inl (name city +:+ " is already in your city list")
  | None =>
      if Z.of_nat (length cs) >=? effective_maxCities o
      then inl ("Maximum " +:+ pretty (effective_maxCities o) +:+ " cities allowed")
      else inr (withTimestamp city now :: cs, withTimestamp city now)
  end.
Proof.
  intros (Hi & Hn & Hc). unfold addCity_try.
  by rewrite !truthy_true.
Qed.

Lemma find_same_city (city c : City) (cs : list City) :
  c ∈ cs -> same_city city c = true -> is_Some (find (same_city city) cs).
Proof.
  intros Hin Hc. induction Hin as [c cs|c d cs Hin IH]; simpl.
  - rewrite Hc. by eexists.
  - destruct (same_city city d); [by eexists|by apply IH].
Qed.

(** A failed call leaves both copies of the list alone. *)
Lemma addCity_rejected_unchanged (o : Options) (now : Z) (city : City)
    (st st' : HookState) (message : string) :
  addCity o now city st = (Rejected message, st') ->
  cities st' = cities st /\ persisted st' = persisted st /\
  error st' = Some message /\ isLoading st' = false.
Proof.
  unfold addCity. destruct (addCity_try o now city (cities st)) as [m|[cs c]].
  - intros [= <- <-]. done.
  - intros [=].
Qed.

(** The duplicate error, for a city that passes validation and matches
    an entry by the predicate of [find]. *)
Lemma addCity_duplicate (o : Options) (now : Z) (city c : City) (st : HookState) :
  valid city -> c ∈ cities st -> same_city city c = true ->
  exists st',
    addCity o now city st
    = (Rejected (name city +:+ " is already in your city list"), st') /\
    cities st' = cities st /\ persisted st' = persisted st.
Proof.
  intros Hv Hin Hc. unfold addCity. rewrite addCity_try_valid by done.
  destruct (find_same_city city c (cities st) Hin Hc) as [d ->].
  eexists. split; [reflexivity|]. done.
Qed.

(** C5, as amended: for every city list and every city with non-empty
    id, name and country whose id is already present in the list,
    [addCity] rejects with an error whose message contains
    "already in your city list", and the list, in state and in storage,
    is unchanged by the failed call. *)
Theorem addCity_same_id_rejected (o : Options) (now : Z) (city : City) (st : HookState) :
  valid city ->
  (exists c, c ∈ cities st /\ id c = id city) ->
  exists message st',
    addCity o now city st = (Rejected message, st') /\
    includes "already in your city list" message = true /\
    cities st' = cities st /\ persisted st' = persisted st.
Proof.
  intros Hv (c & Hin & Hid).
  destruct (addCity_duplicate o now city c st Hv Hin) as (st' & Hr & Hc & Hp).
  { unfold same_city. rewrite Hid, String.eqb_refl. done. }
  exists (name city +:+ " is already in your city list"), st'.
  split; [done|]. split; [|done].
  by apply includes_app_r.
Qed.

Lemma addCity_same_id_rejected_witness :
  exists message st',
    addCity no_options 1700000000000 (sample "a" "Paris" "FR")
            (state_of [sample "a" "Paris" "FR"]) = (Rejected message, st') /\
    includes "already in your city list" message = true /\
    cities st' = [sample "a" "Paris" "FR"] /\
    persisted st' = Some [sample "a" "Paris" "FR"].
Proof.
  apply (addCity_same_id_rejected no_options 1700000000000 (sample "a" "Paris" "FR")
           (state_of [sample "a" "Paris" "FR"])).
  - unfold valid. simpl. repeat split; discriminate.
  - exists (sample "a" "Paris" "FR"). split; [|reflexivity].
    simpl. apply list_elem_of_here.
Defined.

(** C5 as stated fails for a city that does not pass validation: the id
    "a" is present in the list, the name is empty, and the error raised
    is the validation error. *)
Lemma addCity_same_id_invalid_counterexample :
  let st := state_of [sample "a" "Paris" "FR"] in
  let city := sample "a" "" "FR" in
  (exists c, c ∈ cities st /\ id c = id city) /\
  exists st',
    addCity no_options 1700000000000 city st
    = (Rejected "Invalid city data: missing required fields", st') /\
    includes "already in your city list"
             "Invalid city data: missing required fields" = false.
Proof.
  simpl. split.
  - eexists. split; [apply list_elem_of_here|reflexivity].
  - eexists. split; reflexivity.
Qed.

(** C9, as amended: a city with non-empty id, name and country whose
    name and country both equal those of a city already in the list is
    rejected with the same "is already in your city list" error, whatever
    its id: the duplicate check is by id or by the (name, country) pair. *)
Theorem addCity_same_name_country_rejected
    (o : Options) (now : Z) (city : City) (st : HookState) :
  valid city ->
  (exists c, c ∈ cities st /\ name c = name city /\ country c = country city) ->
  exists st',
    addCity o now city st
    = (Rejected (name city +:+ " is already in your city list"), st') /\
    cities st' = cities st /\ persisted st' = persisted st.
Proof.
  intros Hv (c & Hin & Hn & Hc).
  apply (addCity_duplicate o now city c st Hv Hin).
  unfold same_city. rewrite Hn, Hc, !String.eqb_refl. apply orb_true_r.
Qed.

Lemma addCity_same_name_country_rejected_witness :
  id (sample "b" "Paris" "FR") <> id (sample "a" "Paris" "FR") /\
  exists st',
    addCity no_options 1700000000000 (sample "b" "Paris" "FR")
            (state_of [sample "a" "Paris" "FR"])
    = (Rejected "Paris is already in your city list", st') /\
    cities st' = [sample "a" "Paris" "FR"] /\
    persisted st' = Some [sample "a" "Paris" "FR"].
Proof.
  split; [discriminate|].
  apply (addCity_same_name_country_rejected no_options 1700000000000
           (sample "b" "Paris" "FR") (state_of [sample "a" "Paris" "FR"])).
  - unfold valid. simpl. repeat split; discriminate.
  - exists (sample "a" "Paris" "FR"). simpl.
    split; [apply list_elem_of_here|split; reflexivity].
Defined.

(** C9 as stated fails for a city that does not pass validation: name
    and country equal those of an entry, the id (empty) differs, and the
    error raised is the validation error. *)
Lemma addCity_same_name_country_invalid_counterexample :
  let st := state_of [sample "a" "Paris" "FR"] in
  let city := sample "" "Paris" "FR" in
  (exists c, c ∈ cities st /\ name c = name city /\ country c = country city
             /\ id c <> id city) /\
  exists st',
    addCity no_options 1700000000000 city st
    = (Rejected "Invalid city data: missing required fields", st') /\
    "Invalid city data: missing required fields"
    <> name city +:+ " is already in your city list".
Proof.
  simpl. split.
  - eexists. split; [apply list_elem_of_here|]. simpl. repeat split; discriminate.
  - eexists. split; [reflexivity|discriminate].
Qed.

(** C6, as amended: when the length of the list equals the maximum in
    force (the option, 20 without it), [addCity] of a city with non-empty
    id, name and country that matches no entry rejects with the error
    "Maximum N cities allowed", and the list, in state and in storage, is
    unchanged. *)
Theorem addCity_at_maximum_rejected
    (o : Options) (now : Z) (city : City) (st : HookState) :
  valid city ->
  (forall c, c ∈ cities st -> same_city city c = false) ->
  Z.of_nat (length (cities st)) = effective_maxCities o ->
  exists st',
    addCity o now city st
    = (Rejected ("Maximum " +:+ pretty (effective_maxCities o) +:+ " cities allowed"),
       st') /\
    cities st' = cities st /\ persisted st' = persisted st.
Proof.
  intros Hv Hnew Hlen. unfold addCity. rewrite addCity_try_valid by done.
  assert (find (same_city city) (cities st) = None) as ->.
  { clear Hlen. induction (cities st) as [|d cs IH]; [done|]. simpl.
    rewrite (Hnew d) by apply list_elem_of_here.
    apply IH. intros c Hc. apply Hnew. by apply list_elem_of_further. }
  rewrite Hlen. rewrite (proj2 (Z.geb_le _ _)) by lia.
  eexists. split; [reflexivity|done].
Qed.

Definition two_cities : list City :=
  [sample "city1" "City 1" "US"; sample "city2" "City 2" "US"].

Definition max_two : Options :=
  {| maxCities := Some 2; has_onCityAdded := false; has_onError := false |}.

Lemma addCity_at_maximum_rejected_witness :
  exists st',
    addCity max_two 1700000000000 (sample "city3" "City 3" "US") (state_of two_cities)
    = (Rejected "Maximum 2 cities allowed", st') /\
    cities st' = two_cities /\ persisted st' = Some two_cities.
Proof.
  apply (addCity_at_maximum_rejected max_two 1700000000000
           (sample "city3" "City 3" "US") (state_of two_cities)).
  - unfold valid. simpl. repeat split; discriminate.
  - intros c Hc. simpl in Hc. unfold two_cities in Hc.
    apply list_elem_of_In in Hc. simpl in Hc.
    destruct Hc as [<-|[<-|[]]]; reflexivity.
  - reflexivity.
Defined.

(** With the default options the limit is 20. *)
Lemma default_maximum : effective_maxCities no_options = 20.
Proof. reflexivity. Qed.

(** C6 as stated fails for a city that does not pass validation: the
    list is at its maximum, the city matches no entry, and the error
    raised is the validation error, not the maximum error. *)
Lemma addCity_at_maximum_invalid_counterexample :
  let st := state_of two_cities in
  let city := sample "city3" "" "US" in
  Z.of_nat (length (cities st)) = effective_maxCities max_two /\
  (forall c, c ∈ cities st -> same_city city c = false) /\
  exists st',
    addCity max_two 1700000000000 city st
    = (Rejected "Invalid city data: missing required fields", st') /\
    "Invalid city data: missing required fields"
    <> "Maximum " +:+ pretty (effective_maxCities max_two) +:+ " cities allowed".
Proof.
  simpl. split; [reflexivity|]. split.
  - intros c Hc. unfold two_cities in Hc.
    apply list_elem_of_In in Hc. simpl in Hc.
    destruct Hc as [<-|[<-|[]]]; reflexivity.
  - eexists. split; [reflexivity|]. vm_compute. discriminate.
Qed.

End CityList.

(** ** The response transformer ([transformCurrentWeather]) *)

Module Transformer.

(** The part of [OpenWeatherCurrentResponse] the transformer reads.  A
    field the code tests against [undefined], or reaches through [?.], is
    an [option] whatever the interface declares. *)
Module Response.

Record Weather := {
  description : string;
  icon : option string;
}.

Record Main := {
  temp : Q;
  feels_like : option Q;
  pressure : Q;
  humidity : Q;
}.

Record Wind := {
  speed : Q;
  deg : option Q;
  gust : option Q;
}.

Record Clouds := { all : option Q }.

Record Sys := {
  sunrise : option Z;
  sunset : option Z;
}.

(** [rain] and [snow]: the amount under the key ["1h"]. *)
Record Precipitation := { one_hour : option Q }.

Record t := {
  weather : option (list Weather);
  main : Main;
  visibility : option Q;
  wind : Wind;
  clouds : option Clouds;
  rain : option Precipitation;
  snow : option Precipitation;
  dt : Z;
  sys : option Sys;
}.

End Response.

(** The normalized [WeatherData], with the optional properties the
    transformer may set. *)
Record WeatherData := {
  dt : Z;
  temperature : Q;
  condition : string;
  humidity : Q;
  pressure : Q;
  windSpeed : Q;
  feelsLike : option Q;
  icon : option string;
  windDirection : option Q;
  windGust : option Q;
  visibility : option Q;
  cloudCover : option Q;
  sunrise : option Z;
  sunset : option Z;
  precipitation : option Q;
}.

(** [x || 0] on a number that may be [undefined]: zero and [undefined]
    are both falsy. *)
Definition or_zero (x : option Q) : Q :=
  match x with
  | Some v => if Qeq_bool v 0 then 0%Q else v
  | None => 0%Q
  end.

(** [x > 0]. *)
Definition positive (x : Q) : bool :=
  match (0 ?= x)%Q with Lt => true | _ => false end.

(** [if (weather.icon) result.icon = weather.icon]: an empty string is
    falsy. *)
Definition truthy_text (x : option string) : option string :=
  match x with
  | Some s => if String.eqb s "" then None else Some s
  | None => None
  end.

(** [(data.rain?.["1h"] || 0) + (data.snow?.["1h"] || 0)]. *)
Definition precipitation_sum (data : Response.t) : Q :=
  (or_zero (Response.rain data ≫= Response.one_hour)
   + or_zero (Response.snow data ≫= Response.one_hour))%Q.

(** [transformCurrentWeather(data)]: the message of the error thrown, or
    the record built. *)
Definition transformCurrentWeather (data : Response.t) : string + WeatherData :=
  match Response.weather data ≫= head with
  | None => inl "Invalid weather data: missing weather information"
  | Some weather =>
      let precipitation := precipitation_sum data in
      inr {|
        dt := Response.dt data;
        temperature := Response.temp (Response.main data);
        condition := Response.description weather;
        humidity := Response.humidity (Response.main data);
        pressure := Response.pressure (Response.main data);
        windSpeed := Response.speed (Response.wind data);
        feelsLike := Response.feels_like (Response.main data);
        icon := truthy_text (Response.icon weather);
        windDirection := Response.deg (Response.wind data);
        windGust := Response.gust (Response.wind data);
        visibility := (fun v => v / 1000)%Q <$> Response.visibility data;
        cloudCover := Response.clouds data ≫= Response.all;
        sunrise := Response.sys data ≫= Response.sunrise;
        sunset := Response.sys data ≫= Response.sunset;
        precipitation := if positive precipitation then Some precipitation else None;
      |}
  end.

(** *** Sample responses *)

Definition clear_sky : Response.Weather :=
  {| Response.description := "clear sky"; Response.icon := Some "01d" |}.

(** A response with every optional field absent. *)
Definition bare : Response.t :=
  {| Response.weather := Some [clear_sky];
     Response.main := {| Response.temp := 22; Response.feels_like := None;
                         Response.pressure := 1013; Response.humidity := 40 |};
     Response.visibility := None;
     Response.wind := {| Response.speed := 3; Response.deg := None;
                         Response.gust := None |};
     Response.clouds := None;
     Response.rain := None;
     Response.snow := None;
     Response.dt := 1700000000;
     Response.sys := None |}.

Definition with_rain (amount : Q) (data : Response.t) : Response.t :=
  {| Response.weather := Response.weather data;
     Response.main := Response.main data;
     Response.visibility := Response.visibility data;
     Response.wind := Response.wind data;
     Response.clouds := Response.clouds data;
     Response.rain := Some {| Response.one_hour := Some amount |};
     Response.snow := Response.snow data;
     Response.dt := Response.dt data;
     Response.sys := Response.sys data |}.

Definition with_gust (amount : Q) (data : Response.t) : Response.t :=
  {| Response.weather := Response.weather data;
     Response.main := Response.main data;
     Response.visibility := Response.visibility data;
     Response.wind := {| Response.speed := Response.speed (Response.wind data);
                         Response.deg := Response.deg (Response.wind data);
                         Response.gust := Some amount |};
     Response.clouds := Response.clouds data;
     Response.rain := Response.rain data;
     Response.snow := Response.snow data;
     Response.dt := Response.dt data;
     Response.sys := Response.sys data |}.

Example transform_bare :
  transformCurrentWeather bare
  = inr {| dt := 1700000000; temperature := 22; condition := "clear sky";
           humidity := 40; pressure := 1013; windSpeed := 3;
           feelsLike := None; icon := Some "01d"; windDirection := None;
           windGust := None; visibility := None; cloudCover := None;
           sunrise := None; sunset := None; precipitation := None |}.
Proof. reflexivity. Qed.

(** The record built, when there is one. *)
Definition built (r : string + WeatherData) : option WeatherData :=
  match r with inr result => Some result | inl _ => None end.

Example transform_gust_zero :
  windGust <$> built (transformCurrentWeather (with_gust 0 bare)) = Some (Some 0%Q).
Proof. reflexivity. Qed.

Example transform_rain_two :
  precipitation <$> built (transformCurrentWeather (with_rain 2 bare)) = Some (Some 2%Q).
Proof. reflexivity. Qed.

(** *** Properties *)

(** A response without a weather element is refused. *)
Lemma transformCurrentWeather_missing_weather (data : Response.t) :
  Response.weather data ≫= head = None ->
  transformCurrentWeather data
  = inl "Invalid weather data: missing weather information".
Proof. intros H. unfold transformCurrentWeather. by rewrite H. Qed.

Lemma positive_spec (x : Q) : positive x = true <-> (0 < x)%Q.
Proof.
  unfold positive. rewrite Qlt_alt. destruct (0 ?= x)%Q; split; congruence.
Qed.

Lemma or_zero_nonneg_eq (x : option Q) : (or_zero x == default 0%Q x)%Q.
Proof.
  destruct x as [v|]; simpl; [|reflexivity].
  destruct (Qeq_bool v 0) eqn:E; [|reflexivity].
  apply Qeq_bool_eq in E. by symmetry.
Qed.

(** C8, as amended: for every response with a weather element the
    transformer copies [feelsLike], [windDirection], [windGust],
    [cloudCover], [sunrise] and [sunset] exactly when the source has them
    and with the source's value, and [visibility] likewise, divided by
    1000; so for these a present zero stays apart from an absent value.
    The icon is set only when the source icon is a non-empty string.  The
    precipitation is the sum of the one-hour rain and snow amounts, an
    absent amount counting as zero, and is set only when that sum is
    positive. *)
Theorem transformCurrentWeather_optional_fields
    (data : Response.t) (weather : Response.Weather) :
  Response.weather data ≫= head = Some weather ->
  exists result,
    transformCurrentWeather data = inr result /\
    feelsLike result = Response.feels_like (Response.main data) /\
    windDirection result = Response.deg (Response.wind data) /\
    windGust result = Response.gust (Response.wind data) /\
    visibility result = (fun v => v / 1000)%Q <$> Response.visibility data /\
    cloudCover result = Response.clouds data ≫= Response.all /\
    sunrise result = Response.sys data ≫= Response.sunrise /\
    sunset result = Response.sys data ≫= Response.sunset /\
    icon result = truthy_text (Response.icon weather) /\
    (forall p, precipitation result = Some p ->
               p = precipitation_sum data /\ (0 < p)%Q) /\
    (precipitation result = None -> (precipitation_sum data <= 0)%Q) /\
    (precipitation_sum data
     == default 0%Q (Response.rain data ≫= Response.one_hour)
        + default 0%Q (Response.snow data ≫= Response.one_hour))%Q.
Proof.
  intros Hw. unfold transformCurrentWeather. rewrite Hw.
  eexists. split; [reflexivity|]. simpl.
  repeat (split; [reflexivity|]).
  split; [|split].
  - intros p. destruct (positive (precipitation_sum data)) eqn:E; [|done].
    intros [= <-]. split; [done|]. by apply positive_spec.
  - destruct (positive (precipitation_sum data)) eqn:E; [done|]. intros _.
    apply Qnot_lt_le. intros Hlt. apply positive_spec in Hlt. congruence.
  - unfold precipitation_sum. by rewrite !or_zero_nonneg_eq.
Qed.

Lemma transformCurrentWeather_optional_fields_witness :
  exists result,
    transformCurrentWeather (with_gust 0 bare) = inr result /\
    feelsLike result = None /\
    windDirection result = None /\
    windGust result = Some 0%Q /\
    visibility result = None /\
    cloudCover result = None /\
    sunrise result = None /\
    sunset result = None /\
    icon result = Some "01d" /\
    (forall p, precipitation result = Some p ->
               p = precipitation_sum (with_gust 0 bare) /\ (0 < p)%Q) /\
    (precipitation result = None -> (precipitation_sum (with_gust 0 bare) <= 0)%Q) /\
    (precipitation_sum (with_gust 0 bare) == 0 + 0)%Q.
Proof.
  apply (transformCurrentWeather_optional_fields (with_gust 0 bare) clear_sky).
  reflexivity.
Defined.

(** C8 as stated fails for the precipitation: a response whose one-hour
    rain amount is present and zero and the same response without rain
    are transformed to the same record. *)
Lemma transformCurrentWeather_zero_rain_counterexample :
  Response.rain (with_rain 0 bare) = Some {| Response.one_hour := Some 0%Q |} /\
  Response.rain bare = None /\
  transformCurrentWeather (with_rain 0 bare) = transformCurrentWeather bare.
Proof. repeat split. Qed.

End Transformer.

(** ** The rate limiter ([checkRateLimit]) *)

Module Governor.

(** [config.rateLimit]. *)
Record RateLimit := {
  requests : Z;
  window : Z;
}.

(** The two counters of the service. *)
Record State := {
  requestCount : Z;
  lastRequestTime : Z;
}.

(** The counters of a new service. *)
Definition initial : State := {| requestCount := 0; lastRequestTime := 0 |}.

(** [x || d] on a number that may be [undefined]. *)
Definition or_default (x : option Z) (d : Z) : Z :=
  match x with
  | Some v => if v =? 0 then d else v
  | None => d
  end.

(** [this.config.rateLimit?.window || 60000]. *)
Definition window_ms (rl : option RateLimit) : Z := or_default (window <$> rl) 60000.

(** [this.config.rateLimit?.requests || 60]. *)
Definition limit (rl : option RateLimit) : Z := or_default (requests <$> rl) 60.

(** Where the synchronous part of [checkRateLimit] stops: at its end,
    the request counted, or at the [await] of the timer. *)
Inductive Entered :=
| Proceed (s : State)
| Wait (waitTime : Z) (s : State).

(** [checkRateLimit] from its call at time [now] to its end or to its
    [await]. *)
Definition checkRateLimit_enter (rl : option RateLimit) (now : Z) (s : State) : Entered :=
  let s :=
    if now - lastRequestTime s >? window_ms rl
    then {| requestCount := 0; lastRequestTime := now |}
    else s in
  if requestCount s >=? limit rl
  then Wait (window_ms rl - (now - lastRequestTime s)) s
  else Proceed {| requestCount := requestCount s + 1;
                  lastRequestTime := lastRequestTime s |}.

(** [checkRateLimit] after its timer has fired, at time [now]; [s] is
    what the counters hold by then. *)
Definition checkRateLimit_resume (now : Z) (s : State) : State :=
  let s := {| requestCount := 0; lastRequestTime := now |} in
  {| requestCount := requestCount s + 1; lastRequestTime := lastRequestTime s |}.

(** The longest delay [setTimeout] takes: the delay is a 32-bit signed
    integer. *)
Definition max_delay : Z := 2147483647.

(** How long [setTimeout(resolve, waitTime)] is sure to wait.  A delay
    from 0 to [max_delay] is waited for.  Outside that range the engines
    differ, a browser taking the delay modulo 2^32 and a negative one for
    0, Node taking 1 ms: there is no wait to count on, and whatever the
    engine still waits is part of the lateness of the timer. *)
Definition timer_delay (waitTime : Z) : Z :=
  if (0 <=? waitTime) && (waitTime <=? max_delay) then waitTime else 0.

(** When a timer set at [now] for [waitTime] milliseconds fires: not
    before [timer_delay] has passed, and [late] milliseconds after. *)
Definition fires_at (now waitTime : Z) (late : N) : Z :=
  now + timer_delay waitTime + Z.of_N late.

(** A request let through: when, and the window start the counters held
    at that moment. *)
Record Admission := {
  at_time : Z;
  window_start : Z;
}.

(** A whole call of [checkRateLimit] with no other call in between: the
    counters after it and the admission. *)
Definition checkRateLimit (rl : option RateLimit) (now : Z) (late : N) (s : State)
  : State * Admission :=
  match checkRateLimit_enter rl now s with
  | Proceed s' => (s', {| at_time := now; window_start := lastRequestTime s' |})
  | Wait waitTime s' =>
      let now' := fires_at now waitTime late in
      let s'' := checkRateLimit_resume now' s' in
      (s'', {| at_time := now'; window_start := lastRequestTime s'' |})
  end.

(** Calls made one after the other, each given by its time and the
    lateness of its timer; the admissions are collected latest first. *)
Fixpoint run (rl : option RateLimit) (calls : list (Z * N)) (s : State)
    (log : list Admission) : State * list Admission :=
  match calls with
  | [] => (s, log)
  | (now, late) :: calls =>
      let '(s', a) := checkRateLimit rl now late s in
      run rl calls s' (a :: log)
  end.

(** The calls come in turn on the clock: each is made at [clock], the
    time the one before it was let through, or later. *)
Fixpoint in_turn (rl : option RateLimit) (calls : list (Z * N)) (s : State)
    (clock : Z) : Prop :=
  match calls with
  | [] => True
  | (now, late) :: calls =>
      clock <= now /\
      in_turn rl calls (checkRateLimit rl now late s).1
              (at_time (checkRateLimit rl now late s).2)
  end.

(** *** Overlapping calls *)

(** What the event loop does next: a caller arrives, or the timer of the
    [i]-th waiting caller fires. *)
Inductive Event :=
| Arrive (now : Z)
| Fire (i : nat) (now : Z).

(** The counters, the due times of the callers waiting at the [await],
    and the admissions, latest first. *)
Record Loop := {
  counters : State;
  waiting : list Z;
  admissions : list Admission;
}.

Definition step (rl : option RateLimit) (l : Loop) (e : Event) : Loop :=
  match e with
  | Arrive now =>
      match checkRateLimit_enter rl now (counters l) with
      | Proceed s =>
          {| counters := s; waiting := waiting l;
             admissions := {| at_time := now; window_start := lastRequestTime s |}
                           :: admissions l |}
      | Wait waitTime s =>
          {| counters := s; waiting := waiting l ++ [now + timer_delay waitTime];
             admissions := admissions l |}
      end
  | Fire i now =>
      match waiting l !! i with
      | Some due =>
          if due <=? now
          then let s := checkRateLimit_resume now (counters l) in
               {| counters := s; waiting := delete i (waiting l);
                  admissions := {| at_time := now; window_start := lastRequestTime s |}
                                :: admissions l |}
          else l
      | None => l
      end
  end.

Definition steps (rl : option RateLimit) (l : Loop) (es : list Event) : Loop :=
  foldl (step rl) l es.

Definition fresh : Loop := {| counters := initial; waiting := []; admissions := [] |}.

(** *** Counting admissions *)

(** The admissions made under the window start [w]. *)
Fixpoint in_window (w : Z) (log : list Admission) : Z :=
  match log with
  | [] => 0
  | a :: log => (if window_start a =? w then 1 else 0) + in_window w log
  end.

(** The admissions made at a time in [from, from + len). *)
Fixpoint in_interval (from len : Z) (log : list Admission) : Z :=
  match log with
  | [] => 0
  | a :: log =>
      (if (from <=? at_time a) && (at_time a <? from + len) then 1 else 0)
      + in_interval from len log
  end.

(** *** Examples *)

Definition one_per_second : option RateLimit := Some {| requests := 1; window := 1000 |}.
Definition two_per_second : option RateLimit := Some {| requests := 2; window := 1000 |}.

Example defaults : window_ms None = 60000 /\ limit None = 60.
Proof. done. Qed.

Example zero_is_default :
  window_ms (Some {| requests := 0; window := 0 |}) = 60000 /\
  limit (Some {| requests := 0; window := 0 |}) = 60.
Proof. done. Qed.

Example second_call_waits :
  run one_per_second [(5000, 0%N); (5001, 0%N)] initial []
  = ({| requestCount := 1; lastRequestTime := 6000 |},
     [ {| at_time := 6000; window_start := 6000 |};
       {| at_time := 5000; window_start := 5000 |} ]).
Proof. reflexivity. Qed.

(** *** Properties *)

Lemma in_window_nonneg (w : Z) (log : list Admission) : 0 <= in_window w log.
Proof. induction log as [|a log IH]; simpl; [done|]. destruct (_ =? _); lia. Qed.

Lemma enter_elapsed (rl : option RateLimit) (s : State) (now : Z) :
  0 < limit rl ->
  now - lastRequestTime s > window_ms rl ->
  checkRateLimit_enter rl now s
  = Proceed {| requestCount := 1; lastRequestTime := now |}.
Proof.
  intros HL He. unfold checkRateLimit_enter.
  rewrite (proj2 (Z.gtb_gt _ _)) by lia. simpl.
  destruct (0 >=? limit rl) eqn:E; [apply Z.geb_le in E; lia|done].
Qed.

Lemma enter_at_limit (rl : option RateLimit) (s : State) (now : Z) :
  now - lastRequestTime s <= window_ms rl ->
  limit rl <= requestCount s ->
  checkRateLimit_enter rl now s
  = Wait (window_ms rl - (now - lastRequestTime s)) s.
Proof.
  intros He Hc. unfold checkRateLimit_enter.
  destruct (now - lastRequestTime s >? window_ms rl) eqn:E;
    [apply Z.gtb_gt in E; lia|].
  by rewrite (proj2 (Z.geb_le _ _)) by lia.
Qed.

Lemma enter_below_limit (rl : option RateLimit) (s : State) (now : Z) :
  now - lastRequestTime s <= window_ms rl ->
  requestCount s < limit rl ->
  checkRateLimit_enter rl now s
  = Proceed {| requestCount := requestCount s + 1;
               lastRequestTime := lastRequestTime s |}.
Proof.
  intros He Hc. unfold checkRateLimit_enter.
  destruct (now - lastRequestTime s >? window_ms rl) eqn:E;
    [apply Z.gtb_gt in E; lia|].
  destruct (requestCount s >=? limit rl) eqn:E'; [apply Z.geb_le in E'; lia|done].
Qed.

(** A wait that fits the delay of [setTimeout] is waited for in full. *)
Lemma timer_delay_fits (waitTime : Z) :
  0 <= waitTime <= max_delay -> timer_delay waitTime = waitTime.
Proof.
  intros H. unfold timer_delay.
  by rewrite (proj2 (Z.leb_le _ _)), (proj2 (Z.leb_le _ _)) by lia.
Qed.

(** No timer waits longer than asked, nor fires before it is set. *)
Lemma timer_delay_bounds (waitTime : Z) :
  0 <= timer_delay waitTime <= Z.max 0 waitTime.
Proof.
  unfold timer_delay.
  destruct (Z.leb_spec 0 waitTime), (Z.leb_spec waitTime max_delay); simpl; lia.
Qed.

(** A wait that does not fit is not waited for. *)
Lemma timer_delay_overflow (waitTime : Z) :
  max_delay < waitTime -> timer_delay waitTime = 0.
Proof.
  intros H. unfold timer_delay.
  destruct (Z.leb_spec waitTime max_delay); [lia|]. by rewrite andb_false_r.
Qed.

Section Sequential.

Variable rl : option RateLimit.
Hypothesis limit_positive : 0 < limit rl.
Hypothesis window_positive : 0 < window_ms rl.
Hypothesis window_fits : window_ms rl <= max_delay.

(** What holds between two calls made one after the other: no window
    start has more admissions than the limit, the counter bounds the
    admissions of the current window start, and no admission carries a
    later window start. *)
Definition inv (s : State) (log : list Admission) : Prop :=
  (forall w, in_window w log <= limit rl) /\
  in_window (lastRequestTime s) log <= requestCount s /\
  requestCount s <= limit rl /\
  (forall w, lastRequestTime s < w -> in_window w log = 0).

Lemma inv_initial : inv initial [].
Proof. unfold inv. simpl. repeat split; intros; lia. Qed.

Lemma inv_new_window (s : State) (log : list Admission) (t : Z) :
  inv s log -> lastRequestTime s < t ->
  inv {| requestCount := 1; lastRequestTime := t |}
      ({| at_time := t; window_start := t |} :: log).
Proof.
  intros (H1 & H2 & H3 & H4) Ht. unfold inv. simpl.
  rewrite Z.eqb_refl, (H4 t Ht). repeat split; try lia.
  - intros w. destruct (t =? w) eqn:E.
    + apply Z.eqb_eq in E. subst w. rewrite (H4 t Ht). lia.
    + apply H1.
  - intros w Hw. destruct (t =? w) eqn:E; [apply Z.eqb_eq in E; lia|].
    apply H4. lia.
Qed.

(** The window start is never ahead of the time the call is let
    through. *)
Lemma checkRateLimit_clock (now : Z) (late : N) (s : State) :
  lastRequestTime s <= now ->
  lastRequestTime (checkRateLimit rl now late s).1
  <= at_time (checkRateLimit rl now late s).2.
Proof.
  intros Hclock. unfold checkRateLimit, checkRateLimit_enter.
  destruct (now - lastRequestTime s >? window_ms rl); cbn [requestCount lastRequestTime].
  - destruct (0 >=? limit rl); simpl; lia.
  - destruct (requestCount s >=? limit rl); simpl; lia.
Qed.

Lemma inv_checkRateLimit (now : Z) (late : N) (s : State) (log : list Admission) :
  lastRequestTime s <= now ->
  inv s log ->
  inv (checkRateLimit rl now late s).1 ((checkRateLimit rl now late s).2 :: log).
Proof.
  intros Hclock Hinv. unfold checkRateLimit.
  destruct (Z_gt_le_dec (now - lastRequestTime s) (window_ms rl)) as [He|He].
  - rewrite enter_elapsed by done. simpl. apply (inv_new_window s); [done|lia].
  - destruct (Z_lt_le_dec (requestCount s) (limit rl)) as [Hc|Hc].
    + rewrite enter_below_limit by done. simpl.
      destruct Hinv as (H1 & H2 & H3 & H4). unfold inv. simpl.
      rewrite Z.eqb_refl. repeat split; try lia.
      * intros w. destruct (lastRequestTime s =? w) eqn:E; [|apply H1].
        apply Z.eqb_eq in E. subst w. lia.
      * intros w Hw.
        destruct (lastRequestTime s =? w) eqn:E; [apply Z.eqb_eq in E; lia|].
        by apply H4.
    + rewrite enter_at_limit by done. simpl.
      apply (inv_new_window s); [done|]. unfold fires_at.
      rewrite timer_delay_fits; lia.
Qed.

Lemma inv_run (calls : list (Z * N)) (s : State) (log : list Admission) (clock : Z) :
  lastRequestTime s <= clock ->
  in_turn rl calls s clock ->
  inv s log -> inv (run rl calls s log).1 (run rl calls s log).2.
Proof.
  revert s log clock.
  induction calls as [|[now late] calls IH]; intros s log clock Hclock Hturn Hinv; [done|].
  simpl in Hturn |- *. destruct Hturn as [Hnow Hturn].
  pose proof (inv_checkRateLimit now late s log ltac:(lia) Hinv) as Hstep.
  pose proof (checkRateLimit_clock now late s ltac:(lia)) as Hnext.
  destruct (checkRateLimit rl now late s) as [s' a]. by apply (IH _ _ (at_time a)).
Qed.

Lemma run_length (calls : list (Z * N)) (s : State) (log : list Admission) :
  length (run rl calls s log).2 = (length calls + length log)%nat.
Proof.
  revert s log. induction calls as [|[now late] calls IH]; intros s log; [done|].
  simpl. destruct (checkRateLimit rl now late s) as [s' a].
  rewrite IH. simpl. lia.
Qed.

End Sequential.

(** C7, as amended: with a positive limit and window in force (the
    configured values, or 60 and 60000 where one is zero or unset), a call
    that finds the window elapsed resets the counter and the window start
    and goes through; a call that finds the counter at the limit sets a
    timer for the remainder of the window and goes through when it fires,
    counters reset at the time it resumes: that is the remainder of the
    window later, or more, whenever the remainder fits the 32-bit delay
    of [setTimeout]; every call ends up let through; and when the window
    fits that delay and the calls come in turn on the clock, without
    overlap, at most the limit of them go through under any one window
    start. *)
Theorem checkRateLimit_governs (rl : option RateLimit) :
  0 < limit rl -> 0 < window_ms rl ->
  (forall s now,
     now - lastRequestTime s > window_ms rl ->
     checkRateLimit_enter rl now s
     = Proceed {| requestCount := 1; lastRequestTime := now |}) /\
  (forall s now late,
     now - lastRequestTime s <= window_ms rl ->
     limit rl <= requestCount s ->
     let waitTime := window_ms rl - (now - lastRequestTime s) in
     let resumed := fires_at now waitTime late in
     checkRateLimit_enter rl now s = Wait waitTime s /\
     (waitTime <= max_delay -> now + waitTime <= resumed) /\
     now <= resumed /\
     checkRateLimit rl now late s
     = ({| requestCount := 1; lastRequestTime := resumed |},
        {| at_time := resumed; window_start := resumed |})) /\
  (forall calls,
     let log := (run rl calls initial []).2 in
     length log = length calls /\
     (window_ms rl <= max_delay -> in_turn rl calls initial 0 ->
      forall w, in_window w log <= limit rl)).
Proof.
  intros HL HW. split; [|split].
  - intros s now He. by apply enter_elapsed.
  - intros s now late He Hc waitTime resumed.
    split; [by apply enter_at_limit|]. split; [|split].
    + intros Hfit. unfold resumed, fires_at.
      rewrite timer_delay_fits; unfold waitTime in *; lia.
    + unfold resumed, fires_at. pose proof (timer_delay_bounds waitTime). lia.
    + unfold checkRateLimit. by rewrite enter_at_limit.
  - intros calls log. split.
    + unfold log. rewrite run_length. simpl. lia.
    + intros Hfit Hturn.
      apply (inv_run rl HL HW Hfit calls initial [] 0 ltac:(done) Hturn
               (inv_initial rl HL)).
Qed.

Lemma checkRateLimit_governs_witness :
  (forall s now,
     now - lastRequestTime s > 1000 ->
     checkRateLimit_enter two_per_second now s
     = Proceed {| requestCount := 1; lastRequestTime := now |}) /\
  (forall s now late,
     now - lastRequestTime s <= 1000 ->
     2 <= requestCount s ->
     let waitTime := 1000 - (now - lastRequestTime s) in
     let resumed := fires_at now waitTime late in
     checkRateLimit_enter two_per_second now s = Wait waitTime s /\
     (waitTime <= max_delay -> now + waitTime <= resumed) /\
     now <= resumed /\
     checkRateLimit two_per_second now late s
     = ({| requestCount := 1; lastRequestTime := resumed |},
        {| at_time := resumed; window_start := resumed |})) /\
  (forall calls,
     let log := (run two_per_second calls initial []).2 in
     length log = length calls /\
     (1000 <= max_delay -> in_turn two_per_second calls initial 0 ->
      forall w, in_window w log <= 2)).
Proof.
  apply (checkRateLimit_governs two_per_second); reflexivity.
Defined.

(** The calls of the example above come in turn, and the bound holds of
    them. *)
Example calls_in_turn :
  let calls := [(5000, 0%N); (5999, 0%N); (6001, 0%N); (6002, 0%N)] in
  in_turn two_per_second calls initial 0 /\
  forall w, in_window w (run two_per_second calls initial []).2 <= 2.
Proof.
  intros calls.
  assert (in_turn two_per_second calls initial 0) as Hturn
    by (vm_compute; intuition discriminate).
  split; [done|].
  apply (inv_run two_per_second ltac:(reflexivity) ltac:(reflexivity)
           ltac:(vm_compute; discriminate) calls initial [] 0 ltac:(done) Hturn
           (inv_initial two_per_second ltac:(reflexivity))).
Qed.

(** A window of thirty days does not fit the delay of [setTimeout]: the
    caller that finds the counter at the limit is not held back, and with
    a limit of one, two calls made in the same millisecond both go through
    under the same window start. *)
Definition one_per_month : option RateLimit :=
  Some {| requests := 1; window := 2592000000 |}.

Example long_window_not_waited :
  let r := run one_per_month [(1700000000000, 0%N); (1700000000000, 0%N)] initial [] in
  r.2 = [ {| at_time := 1700000000000; window_start := 1700000000000 |};
          {| at_time := 1700000000000; window_start := 1700000000000 |} ] /\
  in_window 1700000000000 r.2 = 2.
Proof. split; reflexivity. Qed.

(** C7 as stated fails.  With a limit of one request per second, two
    callers that arrive while the counter is at the limit wait on timers
    of their own; both resume at 6000, each resets the counter, and both
    go through under the same window start.  And with calls that do not
    overlap and a limit of two per second, three requests go through in
    the second that starts at 5999: the window is restarted at 6001 and
    does not roll. *)
Lemma checkRateLimit_window_counterexample :
  (let l := steps one_per_second fresh
              [Arrive 5000; Arrive 5001; Arrive 5002; Fire 0 6000; Fire 0 6000] in
   limit one_per_second = 1 /\
   waiting l = [] /\
   admissions l = [ {| at_time := 6000; window_start := 6000 |};
                    {| at_time := 6000; window_start := 6000 |};
                    {| at_time := 5000; window_start := 5000 |} ] /\
   in_window 6000 (admissions l) = 2) /\
  (let log := (run two_per_second
                 [(5000, 0%N); (5999, 0%N); (6001, 0%N); (6002, 0%N)] initial []).2 in
   limit two_per_second = 2 /\
   window_ms two_per_second = 1000 /\
   in_interval 5999 1000 log = 3).
Proof. split; repeat split. Qed.

End Governor.

(** ** The retry loop ([makeRequest]) *)

Module Retry.

(** The errors the loop meets: [Error] is what the service itself
    throws, [TypeError] what [fetch] rejects with on a network failure,
    [SyntaxError] what [response.json()] rejects with on a body that is
    not JSON. *)
Inductive ErrorName := Error | TypeError | SyntaxError.

Record JsError := {
  name : ErrorName;
  message : string;
}.

(** [new Error(message)]. *)
Definition new_Error (message : string) : JsError :=
  {| name := Error; message := message |}.

(** [new Error("Request cancelled")]. *)
Definition cancelled : JsError := new_Error "Request cancelled".

Section Loop.

(** The type [T] of the parsed body. *)
Context {T : Type}.

(** What [response.json()] gives on a response that is [ok]. *)
Inductive Body :=
| Json (data : T)
| Unparsable (message : string).

(** The response of the server: [ok] with its body, or not, with the
    status, the status text and the [message] of the error body when it
    parses and has one.  An error body that parses to [null] is apart:
    reading its [message] throws a [TypeError], whose text [thrown] is the
    engine's. *)
Inductive Response :=
| Ok (body : Body)
| NotOk (status : Z) (statusText : string) (errorMessage : option string)
| NotOkNull (status : Z) (statusText : string) (thrown : string).

(** What [fetch] settles with when the signal leaves it alone. *)
Inductive Fetched :=
| Responded (response : Response)
| Failed (message : string).

(** What happens around one attempt: the answer of the network, whether
    the signal is aborted before that answer has been read, and whether
    it is aborted during the wait that follows the attempt. *)
Record Attempt := {
  fetched : Fetched;
  aborted_in_flight : bool;
  aborted_in_wait : bool;
}.

(** The caller's side: [signal] is [None] when no signal is passed, and
    otherwise tells whether it is aborted already when the loop starts;
    [attempt k] is what happens around attempt [k]. *)
Record Env := {
  signal : option bool;
  attempt : Z -> Attempt;
}.

(** [config.retry]. *)
Record RetryConfig := {
  attempts : Z;
  delay : Z;
}.

(** [const { attempts = 3, delay = 1000 } = this.config.retry || {}]. *)
Definition attempts_of (retry : option RetryConfig) : Z :=
  match retry with Some r => attempts r | None => 3 end.

Definition delay_of (retry : option RetryConfig) : Z :=
  match retry with Some r => delay r | None => 1000 end.

(** How [makeRequest] ends: it returns the body, or throws; the value
    thrown is [undefined] ([None]) when [throw lastError] is reached with
    no attempt made. *)
Inductive Outcome :=
| Returned (data : T)
| Thrown (e : option JsError).

(** What the loop does, in order: a request sent to the network, a call
    of [fetch] refused at once because the signal is aborted already, the
    signal being aborted, a wait. *)
Inductive Event :=
| Request (attempt : Z)
| Refused (attempt : Z)
| Aborted
| Sleep (ms : Z).

(** [errorData.message || response.statusText]. *)
Definition or_text (x : option string) (d : string) : string :=
  match x with
  | Some s => if String.eqb s "" then d else s
  | None => d
  end.

(** The [try] block on the answer of the network: the body returned, or
    the error caught. *)
Definition tried (f : Fetched) : JsError + T :=
  match f with
  | Failed message => inl {| name := TypeError; message := message |}
  | Responded (Ok (Json data)) => inr data
  | Responded (Ok (Unparsable message)) =>
      inl {| name := SyntaxError; message := message |}
  | Responded (NotOk status statusText errorMessage) =>
      inl (new_Error ("OpenWeather API error " +:+ pretty status +:+ ": "
                      +:+ or_text errorMessage statusText))
  | Responded (NotOkNull status statusText thrown) =>
      inl {| name := TypeError; message := thrown |}
  end.

(** The [for] loop of [makeRequest] over the attempt numbers still to
    run, [todo]; [has_signal] tells whether a signal was passed,
    [aborted] whether it is aborted by now, [lastError] is the variable
    of that name. *)
Fixpoint attempt_loop (attempts delay : Z) (has_signal : bool) (env : Z -> Attempt)
    (todo : list Z) (aborted : bool) (lastError : option JsError)
  : Outcome * list Event :=
  match todo with
  | [] => (Thrown lastError, [])
  | attempt :: todo =>
      if has_signal && aborted
      then (Thrown (Some cancelled), [Refused attempt])
      else if has_signal && aborted_in_flight (env attempt)
      then (Thrown (Some cancelled), [Request attempt; Aborted])
      else match tried (fetched (env attempt)) with
           | inr data => (Returned data, [Request attempt])
           | inl error =>
               if includes "4" (message error)
               then (Thrown (Some error), [Request attempt])
               else if attempt <? attempts
               then let aborted := has_signal && aborted_in_wait (env attempt) in
                    let '(outcome, events) :=
                      attempt_loop attempts delay has_signal env todo aborted (Some error) in
                    (outcome,
                     Request attempt :: Sleep (delay * attempt)
                     :: (if aborted then [Aborted] else []) ++ events)
               else let '(outcome, events) :=
                      attempt_loop attempts delay has_signal env todo aborted (Some error) in
                    (outcome, Request attempt :: events)
           end
  end.

(** [makeRequest] from the end of [checkRateLimit] on: the attempts
    [1 .. attempts]. *)
Definition makeRequest_loop (retry : option RetryConfig) (env : Env)
  : Outcome * list Event :=
  attempt_loop (attempts_of retry) (delay_of retry)
    (bool_decide (is_Some (signal env))) (attempt env)
    (seqZ 1 (attempts_of retry)) (default false (signal env)) None.

(** The requests that reached the network. *)
Definition requests (events : list Event) : list Z :=
  omap (fun e => match e with Request k => Some k | _ => None end) events.


(** *** Sample environments *)

(** Every attempt is answered by [response], and no signal is passed. *)
Definition always (response : Response) : Env :=
  {| signal := None;
     attempt := fun _ => {| fetched := Responded response;
                            aborted_in_flight := false;
                            aborted_in_wait := false |} |}.

Definition status_error (status : Z) (statusText : string) : JsError :=
  new_Error ("OpenWeather API error " +:+ pretty status +:+ ": " +:+ statusText).

End Loop.

Arguments Body : clear implicits.
Arguments Response : clear implicits.
Arguments Fetched : clear implicits.
Arguments Attempt : clear implicits.
Arguments Env : clear implicits.
Arguments Outcome : clear implicits.

(** *** Examples *)

Example internal_error_retried :
  makeRequest_loop None (always (T := unit) (NotOk 500 "Internal Server Error" None))
  = (Thrown (Some (status_error 500 "Internal Server Error")),
     [Request 1; Sleep 1000; Request 2; Sleep 2000; Request 3]).
Proof. reflexivity. Qed.

Example not_found_not_retried :
  makeRequest_loop None (always (T := unit) (NotOk 404 "Not Found" (Some "city not found")))
  = (Thrown (Some (new_Error "OpenWeather API error 404: city not found")),
     [Request 1]).
Proof. reflexivity. Qed.

Example success_first :
  makeRequest_loop None (always (Ok (Json 7))) = (Returned 7, [Request 1]).
Proof. reflexivity. Qed.

(** A response of status 404 whose body is the JSON text [null]: what
    is caught is the [TypeError] of reading [null.message], its message
    has no "4", and the request is tried three times. *)
Example null_error_body_retried :
  makeRequest_loop None
    (always (T := unit)
       (NotOkNull 404 "Not Found" "Cannot read properties of null (reading 'message')"))
  = (Thrown (Some {| name := TypeError;
                     message := "Cannot read properties of null (reading 'message')" |}),
     [Request 1; Sleep 1000; Request 2; Sleep 2000; Request 3]).
Proof. reflexivity. Qed.

Example no_attempt :
  makeRequest_loop (Some {| attempts := 0; delay := 1000 |})
                   (always (T := unit) (NotOk 500 "Internal Server Error" None))
  = (Thrown None, []).
Proof. reflexivity. Qed.

(** *** Properties *)

Section Properties.

Context {T : Type}.

Implicit Types (env : Z -> Attempt T) (f : Fetched T) (e : JsError).


(** The message of an error built from a response that is not [ok]
    starts with the name of the provider. *)
Lemma status_error_message (status : Z) (statusText : string) (errorMessage : option string) e :
  tried (T := T) (Responded (NotOk status statusText errorMessage)) = inl e ->
  name e = Error /\ prefix_of "OpenWeather API error " (message e) = true /\
  message e <> "Request cancelled".
Proof. simpl. intros [= <-]. simpl. repeat split. discriminate. Qed.

(** One turn of the loop when the signal is aborted already. *)
Lemma attempt_loop_refused attempts delay env (k : Z) (todo : list Z) lastError :
  attempt_loop attempts delay true env (k :: todo) true lastError
  = (Thrown (Some cancelled), [Refused k]).
Proof. reflexivity. Qed.






End Properties.



(** A signal aborted while the second request is in flight. *)
Definition aborted_during_second : Env unit :=
  {| signal := Some false;
     attempt := fun k =>
       {| fetched := Responded (NotOk 500 "Internal Server Error" None);
          aborted_in_flight := bool_decide (k = 2);
          aborted_in_wait := false |} |}.

(** A signal aborted during the wait that follows the first attempt. *)
Definition aborted_during_first_wait : Env unit :=
  {| signal := Some false;
     attempt := fun k =>
       {| fetched := Failed "Failed to fetch";
          aborted_in_flight := false;
          aborted_in_wait := bool_decide (k = 1) |} |}.


Example cancelled_in_flight :
  makeRequest_loop None aborted_during_second
  = (Thrown (Some cancelled), [Request 1; Sleep 1000; Request 2; Aborted]).
Proof. reflexivity. Qed.

Example cancelled_in_wait :
  makeRequest_loop None aborted_during_first_wait
  = (Thrown (Some cancelled), [Request 1; Sleep 1000; Aborted; Refused 2]).
Proof. reflexivity. Qed.

(** *** Which failures are retried *)

(** The test [error.message.includes("4")] holds of every error built
    from a status between 400 and 499. *)
Lemma client_status_includes_4 (status : Z) :
  400 <= status <= 499 -> includes "4" (pretty status) = true.
Proof.
  intros Hs.
  assert (forallb (fun n => includes "4" (pretty (400 + Z.of_nat n))) (seq 0 100) = true)
    as Hall by (vm_compute; reflexivity).
  rewrite forallb_forall in Hall.
  replace status with (400 + Z.of_nat (Z.to_nat (status - 400))) by lia.
  apply Hall, in_seq. lia.
Qed.

Section Retried.

Context {T : Type}.

Implicit Types (env : Z -> Attempt T).

(** A response with a status between 400 and 499, its error body not
    [null], ends the loop at once with the error built from it, unless
    the signal is aborted by then. *)
Lemma client_error_not_retried attempts delay has_signal env
    (k : Z) (todo : list Z) (aborted : bool) lastError
    (status : Z) (statusText : string) (errorMessage : option string) :
  has_signal && aborted = false ->
  has_signal && aborted_in_flight (env k) = false ->
  fetched (env k) = Responded (NotOk status statusText errorMessage) ->
  400 <= status <= 499 ->
  attempt_loop attempts delay has_signal env (k :: todo) aborted lastError
  = (Thrown (Some (new_Error ("OpenWeather API error " +:+ pretty status +:+ ": "
                              +:+ or_text errorMessage statusText))),
     [Request k]).
Proof.
  intros Hab Hfl Hf Hs. cbn [attempt_loop]. rewrite Hab, Hfl, Hf.
  cbn [tried new_Error message].
  rewrite includes_app_r; [done|].
  apply includes_app_l. by apply client_status_includes_4.
Qed.


End Retried.

(** The waits of such a run grow by [delay] from one to the next. *)
Lemma linear_backoff_increasing (delay k len : Z) (i : nat) (a b : Z) :
  0 < delay ->
  ((fun j => delay * j) <$> seqZ k len) !! i = Some a ->
  ((fun j => delay * j) <$> seqZ k len) !! S i = Some b ->
  a < b.
Proof.
  intros Hd. rewrite !list_lookup_fmap.
  intros Ha Hb.
  destruct (seqZ k len !! i) as [x|] eqn:Hx; [|done].
  destruct (seqZ k len !! S i) as [y|] eqn:Hy; [|done].
  apply lookup_seqZ in Hx as [-> _]. apply lookup_seqZ in Hy as [-> _].
  simpl in *. simplify_eq. nia.
Qed.




(** C3, at the failing input: with the default three attempts, a first
    response of status 504, of the 5xx class, is not retried: the message
    of its error contains the character "4", one request is sent, and the
    error is thrown at once; a response of status 500 is tried three
    times. *)
Theorem gateway_timeout_not_retried :
  attempts_of (@None RetryConfig) = 3 /\
  makeRequest_loop None (always (T := unit) (NotOk 504 "Gateway Timeout" None))
  = (Thrown (Some (status_error 504 "Gateway Timeout")), [Request 1]) /\
  includes "4" (message (status_error 504 "Gateway Timeout")) = true /\
  requests (makeRequest_loop None
              (always (T := unit) (NotOk 500 "Internal Server Error" None))).2
  = [1; 2; 3].
Proof. repeat split. Qed.

End Retry.

(** ** The local-storage hooks ([useLocalStorage], [useLocalStorageWithExpiry]) *)

Module Cache.

Local Unset Elimination Schemes.

(** The values [JSON.parse] produces; numbers are integers here. *)
Inductive Json :=
| JNull
| JBool (b : bool)
| JNum (n : Z)
| JStr (s : string)
| JArr (items : list Json)
| JObj (fields : list (string * Json)).

Local Set Elimination Schemes.

(** A JavaScript value of the hooks: a JSON value or [undefined]. *)
Abbreviation Value := (option Json).

(** A text held by local storage: the text [JSON.stringify] gives for a
    JSON value, kept as that value, or any other text, which
    [JSON.parse] refuses. *)
Inductive Item :=
| Serialized (j : Json)
| Text (s : string).

(** [JSON.stringify(v)] as [setItem] stores it: for [undefined] the
    result is [undefined], stored as the text "undefined". *)
Definition stringify (v : Value) : Item :=
  match v with
  | Some j => Serialized j
  | None => Text "undefined"
  end.

(** [JSON.parse(item)]; [None] when it throws. *)
Definition parse (item : Item) : option Json :=
  match item with
  | Serialized j => Some j
  | Text _ => None
  end.

(** A text is truthy when it is not empty; serialized JSON never is. *)
Definition truthy (item : Item) : bool :=
  match item with
  | Serialized _ => true
  | Text s => negb (String.eqb s "")
  end.

(** [j[name]] for the names the hook reads, [value] and [expiry]: only
    an object has them. *)
Definition property (name : string) (j : Json) : Value :=
  match j with
  | JObj fields => snd <$> find (fun f => String.eqb (fst f) name) fields
  | _ => None
  end.

(** [String(j)], which the comparison with a number goes through for an
    array or an object. *)
Fixpoint ToString (j : Json) : string :=
  match j with
  | JNull => "null"
  | JBool b => if b then "true" else "false"
  | JNum n => pretty n
  | JStr s => s
  | JArr items =>
      (fix join (l : list Json) : string :=
         match l with
         | [] => ""
         | x :: l' =>
             let element := match x with JNull => "" | _ => ToString x end in
             match l' with
             | [] => element
             | _ => element +:+ "," +:+ join l'
             end
         end) items
  | JObj _ => "[object Object]"
  end.

(** The state of one mounted hook and the browser it runs in ([window]
    is defined): the React state [storedValue], the local storage, which
    can be read, and [quota], the contents the browser lets the storage
    come to.  A write that would give other contents makes [setItem]
    throw: the quota is exceeded, or storage is disabled. *)
Record Hook := {
  storedValue : Value;
  storage : gmap string Item;
  quota : gmap string Item -> bool;
}.

(** A browser that takes every write. *)
Definition unlimited : gmap string Item -> bool := fun _ => true.

(** Every write goes through in the browser of [h]. *)
Definition accepting (h : Hook) : Prop := forall st, quota h st = true.

(** The argument of a setter: a value, or a function of the previous
    value. *)
Inductive Update :=
| Plain (v : Value)
| Updater (f : Value -> Value).

Section Hooks.

(** [StringToNumber] of the language, on the text of a string, an array
    or an object; [None] is [NaN]. *)
Variable StringToNumber : string -> option Z.

(** [ToNumber(v)]; [None] is [NaN]. *)
Definition ToNumber (v : Value) : option Z :=
  match v with
  | None => None
  | Some JNull => Some 0
  | Some (JBool b) => Some (if b then 1 else 0)
  | Some (JNum n) => Some n
  | Some j => StringToNumber (ToString j)
  end.

(** [now > v] for a number [now]. *)
Definition greater (now : Z) (v : Value) : bool :=
  match ToNumber v with
  | Some n => n <? now
  | None => false
  end.

(** The key and the initial value the hook is called with. *)
Variable key : string.
Variable initialValue : Value.

(** The initializer of [useState] in [useLocalStorage], in a browser
    whose storage holds [st] and lets through what [q] says. *)
Definition mount (st : gmap string Item) (q : gmap string Item -> bool) : Hook :=
  {| storedValue :=
       match st !! key with
       | Some item =>
           if truthy item
           then match parse item with Some j => Some j | None => initialValue end
           else initialValue
       | None => initialValue
       end;
     storage := st;
     quota := q |}.

(** [window.localStorage.setItem(key, item)]: the storage after the
    write, or [None] when the browser refuses it and [setItem] throws. *)
Definition setItem (item : Item) (h : Hook) : option (gmap string Item) :=
  let st := <[key := item]> (storage h) in
  if quota h st then Some st else None.

(** [setValue(value)] of [useLocalStorage]: the state is set first; when
    [setItem] then throws, the [catch] clause only reports it, and the
    storage keeps what it held. *)
Definition setValue (value : Update) (h : Hook) : Hook :=
  let valueToStore :=
    match value with Updater f => f (storedValue h) | Plain v => v end in
  {| storedValue := valueToStore;
     storage := default (storage h) (setItem (stringify valueToStore) h);
     quota := quota h |}.

(** [removeValue()] of [useLocalStorage]. *)
Definition removeValue (h : Hook) : Hook :=
  {| storedValue := initialValue; storage := delete key (storage h);
     quota := quota h |}.

(** [expiryInMinutes], when it is truthy. *)
Definition truthy_minutes (expiryInMinutes : option Z) : option Z :=
  match expiryInMinutes with
  | Some m => if m =? 0 then None else Some m
  | None => None
  end.

(** [{ value: valueToStore, expiry: expiryTime }] once serialized: a
    property that is [undefined] is left out. *)
Definition dataWithExpiry (valueToStore : Value) (expiryTime : Z) : Json :=
  JObj (match valueToStore with Some j => [("value", j)] | None => [] end
        ++ [("expiry", JNum expiryTime)]).

(** [setValueWithExpiry(newValue)] of [useLocalStorageWithExpiry], called
    at time [now]: the pair is written, then [setValue] is called; when
    the write of the pair throws, [setValue] is not reached and nothing
    changes. *)
Definition setValueWithExpiry (expiryInMinutes : option Z) (now : Z)
    (newValue : Update) (h : Hook) : Hook :=
  match truthy_minutes expiryInMinutes with
  | None => setValue newValue h
  | Some minutes =>
      let valueToStore :=
        match newValue with Updater f => f (storedValue h) | Plain v => v end in
      let expiryTime := now + minutes * 60 * 1000 in
      match setItem (Serialized (dataWithExpiry valueToStore expiryTime)) h with
      | Some st =>
          setValue (Plain valueToStore)
            {| storedValue := storedValue h; storage := st; quota := quota h |}
      | None => h
      end
  end.

(** [checkExpiry()], run at time [now] by the effect of
    [useLocalStorageWithExpiry]: on mount, after each change of the
    setters, and every minute. *)
Definition checkExpiry (now : Z) (h : Hook) : Hook :=
  match storage h !! key with
  | Some item =>
      if truthy item
      then match parse item with
           | None | Some JNull => removeValue h
           | Some j =>
               if greater now (property "expiry" j)
               then removeValue h
               else setValue (Plain (property "value" j)) h
           end
      else h
  | None => h
  end.

(** The effect itself: it does nothing without a truthy
    [expiryInMinutes]. *)
Definition expiry_effect (expiryInMinutes : option Z) (now : Z) (h : Hook) : Hook :=
  match truthy_minutes expiryInMinutes with
  | None => h
  | Some _ => checkExpiry now h
  end.

End Hooks.

(** *** Properties *)

Section Properties.

Variable StringToNumber : string -> option Z.
Variable key : string.
Variable initialValue : Value.

(** A write with an expiry leaves the bare value in storage: the pair
    written first is overwritten by the [setValue] that follows. *)
Lemma setValueWithExpiry_stores_bare_value (minutes now : Z) (v : Value) (h : Hook) :
  minutes <> 0 ->
  accepting h ->
  let h' := setValueWithExpiry key (Some minutes) now (Plain v) h in
  storedValue h' = v /\ storage h' !! key = Some (stringify v) /\ accepting h'.
Proof.
  intros Hm Hq h'. subst h'. unfold setValueWithExpiry, truthy_minutes.
  destruct (minutes =? 0) eqn:E; [apply Z.eqb_eq in E; lia|].
  unfold setValue, setItem. cbn [storage quota storedValue]. rewrite !Hq.
  simpl. split; [done|]. split; [|done]. by rewrite lookup_insert_eq.
Qed.

(** A write with an expiry that the browser refuses changes nothing,
    the state included. *)
Lemma setValueWithExpiry_refused (minutes now : Z) (u : Update) (h : Hook) :
  minutes <> 0 ->
  (forall st, quota h st = false) ->
  setValueWithExpiry key (Some minutes) now u h = h.
Proof.
  intros Hm Hq. unfold setValueWithExpiry, truthy_minutes.
  destruct (minutes =? 0) eqn:E; [apply Z.eqb_eq in E; lia|].
  unfold setItem. by rewrite Hq.
Qed.

(** A plain write that the browser refuses: the state shows the value,
    the storage does not. *)
Lemma setValue_refused (v : Value) (h : Hook) :
  (forall st, quota h st = false) ->
  storedValue (setValue key (Plain v) h) = v /\
  storage (setValue key (Plain v) h) = storage h.
Proof. intros Hq. unfold setValue, setItem. simpl. by rewrite Hq. Qed.

(** What [checkExpiry] does on the pair it expects: past the expiry the
    key is removed and the state is back to the initial value; before it
    the value of the pair is set again. *)
Lemma checkExpiry_on_pair (expiryTime now : Z) (j : Json) (h : Hook) :
  storage h !! key = Some (Serialized (dataWithExpiry (Some j) expiryTime)) ->
  checkExpiry StringToNumber key initialValue now h
  = if expiryTime <? now
    then removeValue key initialValue h
    else setValue key (Plain (Some j)) h.
Proof.
  intros Hs. unfold checkExpiry. rewrite Hs. cbn [truthy parse].
  assert (property "expiry" (dataWithExpiry (Some j) expiryTime) = Some (JNum expiryTime))
    as -> by reflexivity.
  assert (property "value" (dataWithExpiry (Some j) expiryTime) = Some j)
    as -> by reflexivity.
  unfold greater. cbn [ToNumber].
  by destruct (expiryTime <? now).
Qed.

Lemma removeValue_removes (h : Hook) :
  storedValue (removeValue key initialValue h) = initialValue /\
  storage (removeValue key initialValue h) !! key = None.
Proof. simpl. split; [done|]. apply lookup_delete_eq. Qed.

(** What it does on a bare object that has neither property: the
    comparison with [undefined] is false at every time, and the state is
    set to the [value] property, [undefined]. *)
Lemma checkExpiry_on_bare_object (fields : list (string * Json)) (now : Z) (h : Hook) :
  storage h !! key = Some (Serialized (JObj fields)) ->
  property "expiry" (JObj fields) = None ->
  property "value" (JObj fields) = None ->
  accepting h ->
  let h' := checkExpiry StringToNumber key initialValue now h in
  storedValue h' = None /\ storage h' !! key = Some (Text "undefined").
Proof.
  intros Hs He Hv Hq h'. subst h'. unfold checkExpiry. rewrite Hs. cbn [truthy parse].
  rewrite He, Hv. unfold greater, setValue, setItem. simpl. rewrite Hq. simpl.
  split; [done|]. by rewrite lookup_insert_eq.
Qed.

(** And on the text that this leaves behind: the key is removed. *)
Lemma checkExpiry_on_undefined_text (now : Z) (h : Hook) :
  storage h !! key = Some (Text "undefined") ->
  checkExpiry StringToNumber key initialValue now h = removeValue key initialValue h.
Proof. intros Hs. unfold checkExpiry. by rewrite Hs. Qed.

End Properties.

(** C1, at the failing input: [{temp: 22}] written under "weather_123"
    with an expiry of ten minutes, in a browser whose storage is empty
    and takes every write.  After the write the storage holds the
    bare value, not the pair of the value and the expiry; and the check
    of the expiry, run at any time [t] after the write, before the ten
    minutes have elapsed or after, finds no expiry, does not remove the
    key, and replaces the value in state by [undefined].  Had the pair
    stayed in storage, a check after the expiry would have removed the key
    and reset the state. *)
Theorem expiry_lost_on_write (StringToNumber : string -> option Z) (t : Z) :
  let written := JObj [("temp", JNum 22)] in
  let now := 1700000000000 in
  let h0 := mount "weather_123" (Some JNull) ∅ unlimited in
  let h1 := setValueWithExpiry "weather_123" (Some 10) now (Plain (Some written)) h0 in
  let h2 := checkExpiry StringToNumber "weather_123" (Some JNull) t h1 in
  let pair := Serialized (dataWithExpiry (Some written) (now + 600000)) in
  storedValue h1 = Some written /\
  storage h1 !! "weather_123" = Some (Serialized written) /\
  Serialized written <> pair /\
  storedValue h2 = None /\
  storage h2 !! "weather_123" = Some (Text "undefined") /\
  (forall h, storage h !! "weather_123" = Some pair ->
     now + 600000 < t ->
     let h' := checkExpiry StringToNumber "weather_123" (Some JNull) t h in
     storedValue h' = Some JNull /\ storage h' !! "weather_123" = None).
Proof.
  intros written now h0 h1 h2 pair.
  destruct (setValueWithExpiry_stores_bare_value "weather_123" 10 now (Some written) h0
              ltac:(lia) ltac:(done)) as (Hv & Hs & Hq).
  fold h1 in Hv, Hs, Hq. simpl in Hs.
  destruct (checkExpiry_on_bare_object StringToNumber "weather_123" (Some JNull)
              [("temp", JNum 22)] t h1 Hs eq_refl eq_refl Hq) as [Hv2 Hs2].
  do 5 (split; [done|]).
  intros h Hpair Hlate h'. subst h'.
  rewrite (checkExpiry_on_pair StringToNumber "weather_123" (Some JNull)
             (now + 600000) t written h Hpair).
  rewrite (proj2 (Z.ltb_lt _ _)) by lia.
  apply removeValue_removes.
Qed.

(** After the write, the two runs of the effect that the changes of
    state trigger leave the hook where it started: the initial value in
    state and no entry in storage. *)
Lemma written_value_gone_after_two_checks (StringToNumber : string -> option Z) (t t' : Z) :
  let h0 := mount "weather_123" (Some JNull) ∅ unlimited in
  let h1 := setValueWithExpiry "weather_123" (Some 10) 1700000000000
              (Plain (Some (JObj [("temp", JNum 22)]))) h0 in
  let h3 := checkExpiry StringToNumber "weather_123" (Some JNull) t'
              (checkExpiry StringToNumber "weather_123" (Some JNull) t h1) in
  storedValue h3 = Some JNull /\ storage h3 !! "weather_123" = None.
Proof.
  intros h0 h1 h3.
  destruct (setValueWithExpiry_stores_bare_value "weather_123" 10 1700000000000
              (Some (JObj [("temp", JNum 22)])) h0 ltac:(lia) ltac:(done))
    as (_ & Hs & Hq).
  fold h1 in Hs, Hq. simpl in Hs.
  destruct (checkExpiry_on_bare_object StringToNumber "weather_123" (Some JNull)
              [("temp", JNum 22)] t h1 Hs eq_refl eq_refl Hq) as [_ Hs2].
  subst h3. rewrite (checkExpiry_on_undefined_text _ _ _ _ _ Hs2).
  apply removeValue_removes.
Qed.

End Cache.

(** ** The in-flight request map ([getCurrentWeather]) *)

Module Client.

(** [Coordinates].  The service only ever prints the two numbers, into
    the key of the request and into the URL, so each stands here as the
    text the template literal gives it. *)
Record Coordinates := {
  lat : string;
  lon : string;
}.

(** The part of [OpenWeatherConfig] that governs requests.  The service
    is taken to be built with an API key and a base URL that [new URL]
    accepts. *)
Record Config := {
  rateLimit : option Governor.RateLimit;
  retry : option Retry.RetryConfig;
}.

(** How the promise of [getCurrentWeather] settles. *)
Inductive Outcome :=
| Resolved (weather : Transformer.WeatherData)
| Rejected (e : option Retry.JsError).

(** A promise made by the [async] function that wraps the request: it is
    suspended at the timer of the rate limiter, suspended in the retry
    loop, or settled.  A pending one remembers its key and whether the
    caller that started it passed a signal. *)
Inductive Promise :=
| Waiting (cacheKey : string) (has_signal : bool) (due : Z)
| Fetching (cacheKey : string) (has_signal : bool)
| Settled (outcome : Outcome).

(** The service: the map [requestQueue] from keys to promises, the
    promises by number, the next free number, the counters of the rate
    limiter, and two tallies kept for the proofs: the calls of
    [makeRequest] and the requests sent to the network. *)
Record Service := {
  requestQueue : gmap string nat;
  promises : gmap nat Promise;
  next : nat;
  counters : Governor.State;
  makeRequests : nat;
  fetches : nat;
}.

Definition new_service : Service :=
  {| requestQueue := ∅; promises := ∅; next := 0;
     counters := Governor.initial; makeRequests := 0; fetches := 0 |}.

(** [`current-${coordinates.lat}-${coordinates.lon}`]. *)
Definition cacheKey (c : Coordinates) : string :=
  "current-" +:+ lat c +:+ "-" +:+ lon c.

(** [getCurrentWeather(coordinates, signal)] up to its [return]: with a
    request in flight for the key, its promise; otherwise the wrapped
    function runs into [makeRequest] and up to the first [await] that
    suspends it, in or after [checkRateLimit], and its promise is put in
    the map.  The result is the promise the caller's own settles as. *)
Definition getCurrentWeather (cfg : Config) (c : Coordinates) (has_signal : bool)
    (now : Z) (s : Service) : Service * nat :=
  match requestQueue s !! cacheKey c with
  | Some requestPromise => (s, requestPromise)
  | None =>
      let requestPromise := next s in
      let '(promise, counters') :=
        match Governor.checkRateLimit_enter (rateLimit cfg) now (counters s) with
        | Governor.Proceed g => (Fetching (cacheKey c) has_signal, g)
        | Governor.Wait waitTime g =>
            (Waiting (cacheKey c) has_signal (now + Governor.timer_delay waitTime), g)
        end in
      ({| requestQueue := <[cacheKey c := requestPromise]> (requestQueue s);
          promises := <[requestPromise := promise]> (promises s);
          next := S requestPromise;
          counters := counters';
          makeRequests := S (makeRequests s);
          fetches := fetches s |},
       requestPromise)
  end.

(** The timer of the rate limiter fires for the promise [p], [late]
    milliseconds after it is due: [checkRateLimit] ends and the retry
    loop starts. *)
Definition timer_fired (p : nat) (late : N) (s : Service) : Service :=
  match promises s !! p with
  | Some (Waiting key has_signal due) =>
      {| requestQueue := requestQueue s;
         promises := <[p := Fetching key has_signal]> (promises s);
         next := next s;
         counters := Governor.checkRateLimit_resume (due + Z.of_N late) (counters s);
         makeRequests := makeRequests s;
         fetches := fetches s |}
  | _ => s
  end.

(** The end of the wrapped function: the body that [makeRequest]
    returned goes through the transformer. *)
Definition finish (o : Retry.Outcome Transformer.Response.t) : Outcome :=
  match o with
  | Retry.Returned data =>
      match Transformer.transformCurrentWeather data with
      | inr weather => Resolved weather
      | inl message => Rejected (Some (Retry.new_Error message))
      end
  | Retry.Thrown e => Rejected e
  end.

(** What the network and the signal do to the retry loop of a promise. *)
Definition loop_env (has_signal aborted : bool)
    (attempt : Z -> Retry.Attempt Transformer.Response.t)
  : Retry.Env Transformer.Response.t :=
  {| Retry.signal := if has_signal then Some aborted else None;
     Retry.attempt := attempt |}.

(** The retry loop of the promise [p] runs to its end, then the
    transformer and the [finally] clause: the key leaves the map and the
    promise settles. *)
Definition completed (cfg : Config) (p : nat) (aborted : bool)
    (attempt : Z -> Retry.Attempt Transformer.Response.t) (s : Service) : Service :=
  match promises s !! p with
  | Some (Fetching key has_signal) =>
      let '(o, events) :=
        Retry.makeRequest_loop (retry cfg) (loop_env has_signal aborted attempt) in
      {| requestQueue := delete key (requestQueue s);
         promises := <[p := Settled (finish o)]> (promises s);
         next := next s;
         counters := counters s;
         makeRequests := makeRequests s;
         fetches := fetches s + length (Retry.requests events) |}
  | _ => s
  end.

(** Calls of [getCurrentWeather] with the same coordinates, one after
    the other with nothing in between, each with its own signal and time;
    the promises handed out are collected in order. *)
Fixpoint concurrent_calls (cfg : Config) (c : Coordinates) (calls : list (bool * Z))
    (s : Service) : Service * list nat :=
  match calls with
  | [] => (s, [])
  | (has_signal, now) :: calls =>
      let '(s', p) := getCurrentWeather cfg c has_signal now s in
      let '(s'', ps) := concurrent_calls cfg c calls s' in
      (s'', p :: ps)
  end.


(** *** Sample data *)

Definition defaults : Config := {| rateLimit := None; retry := None |}.

Definition here : Coordinates := {| lat := "10"; lon := "20" |}.

(** A network that answers every attempt with the bare sample response. *)
Definition reliable (k : Z) : Retry.Attempt Transformer.Response.t :=
  {| Retry.fetched := Retry.Responded (Retry.Ok (Retry.Json Transformer.bare));
     Retry.aborted_in_flight := false;
     Retry.aborted_in_wait := false |}.


Example key_here : cacheKey here = "current-10-20".
Proof. reflexivity. Qed.

(** *** Properties *)

Lemma getCurrentWeather_joins (cfg : Config) (c : Coordinates) (has_signal : bool)
    (now : Z) (s : Service) (p : nat) :
  requestQueue s !! cacheKey c = Some p ->
  getCurrentWeather cfg c has_signal now s = (s, p).
Proof. intros H. unfold getCurrentWeather. by rewrite H. Qed.

(** The promise a first call leaves pending. *)
Definition started (c : Coordinates) (has_signal : bool) (promise : Promise) : Prop :=
  promise = Fetching (cacheKey c) has_signal \/
  exists due, promise = Waiting (cacheKey c) has_signal due.

Lemma getCurrentWeather_starts (cfg : Config) (c : Coordinates) (has_signal : bool)
    (now : Z) (s : Service) :
  requestQueue s !! cacheKey c = None ->
  let r := getCurrentWeather cfg c has_signal now s in
  r.2 = next s /\
  requestQueue r.1 !! cacheKey c = Some (next s) /\
  (exists promise, promises r.1 !! next s = Some promise /\ started c has_signal promise) /\
  makeRequests r.1 = S (makeRequests s) /\
  fetches r.1 = fetches s.
Proof.
  intros H r. subst r. unfold getCurrentWeather. rewrite H.
  destruct (Governor.checkRateLimit_enter (rateLimit cfg) now (counters s))
    as [g|waitTime g]; simpl; rewrite !lookup_insert_eq;
    (split; [done|]; split; [done|]; split; [|done]);
    eexists; (split; [done|]); [by left|right; by eexists].
Qed.

Lemma concurrent_calls_join (cfg : Config) (c : Coordinates) (calls : list (bool * Z))
    (s : Service) (p : nat) :
  requestQueue s !! cacheKey c = Some p ->
  concurrent_calls cfg c calls s = (s, replicate (length calls) p).
Proof.
  intros H. induction calls as [|[has_signal now] calls IH]; [done|].
  simpl. by rewrite (getCurrentWeather_joins _ _ _ _ _ _ H), IH.
Qed.

(** The pending promise runs to its end: the timer of the rate limiter,
    when it waits on it, then the retry loop. *)
Definition settle (cfg : Config) (p : nat) (late : N) (aborted : bool)
    (attempt : Z -> Retry.Attempt Transformer.Response.t) (s : Service) : Service :=
  completed cfg p aborted attempt (timer_fired p late s).

Lemma settle_started (cfg : Config) (c : Coordinates) (has_signal : bool)
    (p : nat) (promise : Promise) (late : N) (aborted : bool)
    (attempt : Z -> Retry.Attempt Transformer.Response.t) (s : Service) :
  promises s !! p = Some promise ->
  started c has_signal promise ->
  let r := Retry.makeRequest_loop (retry cfg) (loop_env has_signal aborted attempt) in
  let s' := settle cfg p late aborted attempt s in
  requestQueue s' = delete (cacheKey c) (requestQueue s) /\
  promises s' !! p = Some (Settled (finish r.1)) /\
  makeRequests s' = makeRequests s /\
  fetches s' = (fetches s + length (Retry.requests r.2))%nat.
Proof.
  intros Hp Hst r s'. subst r s'. unfold settle, timer_fired. rewrite Hp.
  destruct Hst as [->|[due ->]]; unfold completed; simpl.
  - rewrite Hp.
    destruct (Retry.makeRequest_loop (retry cfg) (loop_env has_signal aborted attempt))
      as [o events]. simpl. by rewrite lookup_insert_eq.
  - rewrite lookup_insert_eq.
    destruct (Retry.makeRequest_loop (retry cfg) (loop_env has_signal aborted attempt))
      as [o events]. simpl. by rewrite lookup_insert_eq.
Qed.





End Client.

(** ** Temperature units: the rest of [useTemperatureUnit] *)

Module UnitHook.

Import Temperature.

(** [toCurrentUnit(temperature, fromUnit = "celsius")], the current unit
    being [unit]. *)
Definition toCurrentUnit (unit : TemperatureUnit) (temperature : Q)
    (fromUnit : option TemperatureUnit) : Q :=
  convertTemperature temperature (default celsius fromUnit) unit.

(** [fromCurrentUnit(temperature, toUnit = "celsius")]. *)
Definition fromCurrentUnit (unit : TemperatureUnit) (temperature : Q)
    (toUnit : option TemperatureUnit) : Q :=
  convertTemperature temperature unit (default celsius toUnit).

(** The updater [toggleUnit] gives to [setUnit]. *)
Definition toggled (current : TemperatureUnit) : TemperatureUnit :=
  if decide (current = celsius) then fahrenheit else celsius.

(** [getApiUnits(apiType)]: both API types get the same answer. *)
Definition getApiUnits (unit : TemperatureUnit) : string :=
  if decide (unit = celsius) then "metric" else "imperial".

(** Converting from any unit to any unit and back gives a rational equal
    to the temperature started from. *)
Theorem convertTemperature_there_and_back (t : Q) (a b : TemperatureUnit) :
  (convertTemperature (convertTemperature t a b) b a == t)%Q.
Proof. destruct a, b; unfold convertTemperature; simpl; field. Qed.

(** [fromCurrentUnit] undoes [toCurrentUnit], whatever the current unit
    and the unit of the input, the default included. *)
Theorem fromCurrentUnit_toCurrentUnit (unit : TemperatureUnit) (t : Q)
    (other : option TemperatureUnit) :
  (fromCurrentUnit unit (toCurrentUnit unit t other) other == t)%Q.
Proof. apply convertTemperature_there_and_back. Qed.

(** The conversion keeps the order of temperatures between any two
    units. *)
Theorem convertTemperature_increasing (t1 t2 : Q) (a b : TemperatureUnit) :
  (t1 < t2)%Q ->
  (convertTemperature t1 a b < convertTemperature t2 a b)%Q.
Proof.
  intros Hlt. destruct a, b; unfold convertTemperature; simpl; try done.
  - apply Qplus_lt_l. apply Qmult_lt_r; [reflexivity|].
    apply Qmult_lt_r; [reflexivity|done].
  - apply Qmult_lt_r; [reflexivity|].
    apply Qmult_lt_r; [reflexivity|]. by apply Qplus_lt_l.
Qed.

Lemma convertTemperature_increasing_witness :
  (convertTemperature 20 celsius fahrenheit
   < convertTemperature 25 celsius fahrenheit)%Q.
Proof.
  apply (convertTemperature_increasing 20 25 celsius fahrenheit). reflexivity.
Defined.

End UnitHook.

(** ** The city list: the other operations of [useCityList] *)

Module CityOps.

Import CityList.

(** [c => c.id === cityId]. *)
Definition has_id (cityId : string) (c : City) : bool := String.eqb (id c) cityId.

(** [cities.findIndex(p)]; [None] stands for -1. *)
Fixpoint findIndex {A : Type} (p : A -> bool) (l : list A) : option nat :=
  match l with
  | [] => None
  | x :: l => if p x then Some 0%nat else S <$> findIndex p l
  end.

(** [isCityAdded(cityId)]. *)
Definition isCityAdded (cityId : string) (st : HookState) : bool :=
  existsb (has_id cityId) (cities st).

(** [getCityById(cityId)]. *)
Definition getCityById (cityId : string) (st : HookState) : option City :=
  find (has_id cityId) (cities st).

(** The [catch] and [finally] clauses the operations share. *)
Definition failed (o : Options) (message : string) (st : HookState)
  : Outcome * HookState :=
  (Rejected message,
   {| cities := cities st;
      persisted := persisted st;
      isLoading := false;
      error := Some message;
      called := if has_onError o then onError message :: called st else called st;
      quota := quota st |}).

(** The state after [setCities(newCities)] and the [finally] clause:
    the state takes the list, storage takes it when the write goes
    through. *)
Definition stored (newCities : list City) (st : HookState) : HookState :=
  {| cities := newCities;
     persisted := written newCities st;
     isLoading := false;
     error := None;
     called := called st;
     quota := quota st |}.

(** [removeCity(cityId)]: the promise, the state, and the city handed to
    [onCityRemoved] when that callback is given. *)
Definition removeCity (o : Options) (cityId : string) (st : HookState)
  : Outcome * HookState * option City :=
  match find (has_id cityId) (cities st) with
  | None => (failed o "City not found in your list" st, None)
  | Some cityToRemove =>
      (Resolved,
       stored (List.filter (fun c => negb (has_id cityId c)) (cities st)) st,
       Some cityToRemove)
  end.

(** [Partial<City>]: a property that is given carries its value. *)
Record CityUpdates := {
  new_id : option string;
  new_name : option string;
  new_country : option string;
  new_state : option (option string);
  new_coordinates : option Coordinates;
  new_timezone : option (option string);
  new_population : option (option Z);
  new_elevation : option (option Q);
  new_addedAt : option (option Z);
  new_isFavorite : option (option bool);
}.

(** [{ ...city, ...updates }]. *)
Definition merged (city : City) (updates : CityUpdates) : City :=
  {| id := default (id city) (new_id updates);
     name := default (name city) (new_name updates);
     country := default (country city) (new_country updates);
     state := default (state city) (new_state updates);
     coordinates := default (coordinates city) (new_coordinates updates);
     timezone := default (timezone city) (new_timezone updates);
     population := default (population city) (new_population updates);
     elevation := default (elevation city) (new_elevation updates);
     addedAt := default (addedAt city) (new_addedAt updates);
     isFavorite := default (isFavorite city) (new_isFavorite updates) |}.

(** [updateCity(cityId, updates)]. *)
Definition updateCity (o : Options) (cityId : string) (updates : CityUpdates)
    (st : HookState) : Outcome * HookState :=
  match findIndex (has_id cityId) (cities st) with
  | None => failed o "City not found in your list" st
  | Some cityIndex =>
      (Resolved, stored (alter (fun c => merged c updates) cityIndex (cities st)) st)
  end.

(** [clearAllCities()]. *)
Definition clearAllCities (st : HookState) : Outcome * HookState :=
  (Resolved, stored [] st).

(** Where [splice(start, ...)] starts in an array of length [len]: a
    negative index counts from the end, and the result is clamped. *)
Definition splice_start (start : Z) (len : nat) : nat :=
  Z.to_nat (if start <? 0 then Z.max (Z.of_nat len + start) 0
            else Z.min start (Z.of_nat len)).

(** The updater of [reorderCities(startIndex, endIndex)] for two
    different indices: [splice(startIndex, 1)] takes an element out,
    [splice(endIndex, 0, removed)] puts it back.  When nothing is taken
    out, [removed] is [undefined] ([None]) and is put in all the same. *)
Definition moved {A : Type} (startIndex endIndex : Z) (l : list A) : list (option A) :=
  let from := splice_start startIndex (length l) in
  let removed := l !! from in
  let rest := take from l ++ drop (S from) l in
  let to := splice_start endIndex (length rest) in
  (Some <$> take to rest) ++ removed :: (Some <$> drop to rest).

(** [reorderCities(startIndex, endIndex)]: the list [setCities] is
    given, or [None] when the indices are equal and nothing is done. *)
Definition reorderCities (startIndex endIndex : Z) (cs : list City)
  : option (list (option City)) :=
  if startIndex =? endIndex then None else Some (moved startIndex endIndex cs).

(** [arr.slice(0, end)]. *)
Definition slice_to {A : Type} (end_ : Z) (l : list A) : list A :=
  take (splice_start end_ (length l)) l.

(** The updater of [addToRecent(city)] in [useRecentCities(maxRecent)]. *)
Definition addToRecent (maxRecent : Z) (city : City) (prevRecent : list City)
  : list City :=
  let filtered := List.filter (fun c => negb (has_id (id city) c)) prevRecent in
  slice_to maxRecent (city :: filtered).

(** A value is truthy as [city.isFavorite] when it is [true]. *)
Definition favorite (c : City) : bool := default false (isFavorite c).

(** [favoriteCities] of [useFavoriteCities]. *)
Definition favoriteCities (st : HookState) : list City :=
  List.filter favorite (cities st).

(** [{ isFavorite: value }]. *)
Definition set_favorite (value : bool) : CityUpdates :=
  {| new_id := None; new_name := None; new_country := None; new_state := None;
     new_coordinates := None; new_timezone := None; new_population := None;
     new_elevation := None; new_addedAt := None;
     new_isFavorite := Some (Some value) |}.

(** [toggleFavorite(cityId)], on the city list the hook gets from
    [useCityList()], called without options: without the city nothing is
    done. *)
Definition toggleFavorite (cityId : string) (st : HookState) : Outcome * HookState :=
  match find (has_id cityId) (cities st) with
  | Some city => updateCity no_options cityId (set_favorite (negb (favorite city))) st
  | None => (Resolved, st)
  end.

(** *** Examples *)

Example reorder_first_to_third :
  reorderCities 0 2 [sample "city1" "City 1" "US"; sample "city2" "City 2" "US";
                     sample "city3" "City 3" "US"]
  = Some (Some <$> [sample "city2" "City 2" "US"; sample "city3" "City 3" "US";
                    sample "city1" "City 1" "US"]).
Proof. reflexivity. Qed.

Example reorder_from_beyond_the_end :
  reorderCities 5 0 [sample "city1" "City 1" "US"]
  = Some [None; Some (sample "city1" "City 1" "US")].
Proof. reflexivity. Qed.

Example reorder_from_the_end :
  reorderCities (-1) 0 [sample "city1" "City 1" "US"; sample "city2" "City 2" "US"]
  = Some (Some <$> [sample "city2" "City 2" "US"; sample "city1" "City 1" "US"]).
Proof. reflexivity. Qed.

(** *** Lookups and removal *)

Lemma find_has_id_none (cityId : string) (cs : list City) :
  find (has_id cityId) cs = None <-> forall c, c ∈ cs -> id c <> cityId.
Proof.
  induction cs as [|d cs IH]; simpl.
  - split; [intros _ c Hc; by apply not_elem_of_nil in Hc|done].
  - unfold has_id at 1. destruct (String.eqb_spec (id d) cityId) as [E|E].
    + split; [done|]. intros H. exfalso. apply (H d); [apply list_elem_of_here|done].
    + rewrite IH. split.
      * intros H c Hc. apply elem_of_cons in Hc as [->|Hc]; [done|by apply H].
      * intros H c Hc. apply H. by apply list_elem_of_further.
Qed.

Lemma find_has_id_some (cityId : string) (cs : list City) (c : City) :
  find (has_id cityId) cs = Some c -> c ∈ cs /\ id c = cityId.
Proof.
  induction cs as [|d cs IH]; simpl; [done|].
  unfold has_id at 1. destruct (String.eqb_spec (id d) cityId) as [E|E].
  - intros [= <-]. split; [apply list_elem_of_here|done].
  - intros H. destruct (IH H) as [Hin Hid]. split; [by apply list_elem_of_further|done].
Qed.

Lemma elem_of_filter_not_id (cityId : string) (cs : list City) (c : City) :
  c ∈ List.filter (fun c => negb (has_id cityId c)) cs <-> c ∈ cs /\ id c <> cityId.
Proof.
  rewrite !list_elem_of_In, filter_In. unfold has_id.
  destruct (String.eqb_spec (id c) cityId) as [E|E]; simpl.
  - split; [intros [_ [=]]|intros [_ Hne]; by destruct Hne].
  - split; intros [Hin _]; done.
Qed.

Lemma filter_not_id_all (cityId : string) (cs : list City) :
  (forall c, c ∈ cs -> id c <> cityId) ->
  List.filter (fun c => negb (has_id cityId c)) cs = cs.
Proof.
  induction cs as [|d cs IH]; intros H; simpl; [done|].
  unfold has_id at 1. destruct (String.eqb_spec (id d) cityId) as [E|E].
  - exfalso. apply (H d); [apply list_elem_of_here|done].
  - simpl. f_equal. apply IH. intros c Hc. apply H. by apply list_elem_of_further.
Qed.

(** Removing a city whose id is not in the list rejects with "City not
    found in your list"; the list is unchanged in state and in storage,
    the message is recorded as the error, and [onCityRemoved] is not
    called. *)
Theorem removeCity_unknown_id (o : Options) (cityId : string) (st : HookState) :
  (forall c, c ∈ cities st -> id c <> cityId) ->
  exists st',
    removeCity o cityId st = (Rejected "City not found in your list", st', None) /\
    cities st' = cities st /\ persisted st' = persisted st /\
    error st' = Some "City not found in your list" /\ isLoading st' = false.
Proof.
  intros H. unfold removeCity.
  rewrite (proj2 (find_has_id_none cityId (cities st)) H).
  eexists. split; [reflexivity|done].
Qed.

Lemma removeCity_unknown_id_witness :
  exists st',
    removeCity no_options "non-existent-id" (state_of [sample "a" "Paris" "FR"])
    = (Rejected "City not found in your list", st', None) /\
    cities st' = [sample "a" "Paris" "FR"] /\
    persisted st' = Some [sample "a" "Paris" "FR"] /\
    error st' = Some "City not found in your list" /\ isLoading st' = false.
Proof.
  apply (removeCity_unknown_id no_options "non-existent-id"
           (state_of [sample "a" "Paris" "FR"])).
  intros c Hc. apply list_elem_of_In in Hc. simpl in Hc.
  destruct Hc as [<-|[]]. discriminate.
Defined.

(** Removing a city whose id is in the list resolves: in state, every
    city with that id leaves the list and the others stay, in their
    order; storage takes the new list when the browser lets the write
    through, and keeps what it held when [setItem] throws; the id is no
    longer found; and the first city with that id is the one handed to
    [onCityRemoved]. *)
Theorem removeCity_known_id (o : Options) (cityId : string) (st : HookState) :
  (exists c, c ∈ cities st /\ id c = cityId) ->
  exists st' removed,
    removeCity o cityId st = (Resolved, st', Some removed) /\
    getCityById cityId st = Some removed /\
    (forall c, c ∈ cities st' <-> c ∈ cities st /\ id c <> cityId) /\
    cities st' `sublist_of` cities st /\
    persisted st'
    = (if quota st (cities st') then Some (cities st') else persisted st) /\
    isCityAdded cityId st' = false /\
    error st' = None.
Proof.
  intros (c & Hin & Hid). unfold removeCity, getCityById.
  destruct (find (has_id cityId) (cities st)) as [removed|] eqn:Hf.
  2:{ by destruct (proj1 (find_has_id_none cityId (cities st)) Hf c Hin). }
  eexists _, removed. split; [reflexivity|]. split; [done|]. simpl.
  split; [apply elem_of_filter_not_id|]. split; [|split; [done|split; [|done]]].
  - clear. induction (cities st) as [|d cs IH]; simpl; [constructor|].
    destruct (negb (has_id cityId d)); by constructor.
  - unfold isCityAdded. simpl. apply not_true_is_false. intros Hex.
    apply existsb_exists in Hex as (d & Hd & Hhas).
    apply list_elem_of_In, elem_of_filter_not_id in Hd as [_ Hne].
    unfold has_id in Hhas. by apply String.eqb_eq in Hhas.
Qed.

Lemma removeCity_known_id_witness :
  exists st' removed,
    removeCity no_options "city1" (state_of two_cities) = (Resolved, st', Some removed) /\
    getCityById "city1" (state_of two_cities) = Some removed /\
    (forall c, c ∈ cities st' <-> c ∈ cities (state_of two_cities) /\ id c <> "city1") /\
    cities st' `sublist_of` cities (state_of two_cities) /\
    persisted st' = Some (cities st') /\
    isCityAdded "city1" st' = false /\
    error st' = None.
Proof.
  apply (removeCity_known_id no_options "city1" (state_of two_cities)).
  exists (sample "city1" "City 1" "US"). split; [apply list_elem_of_here|reflexivity].
Defined.

(** A browser whose storage is full: it holds [cs] and takes no write. *)
Definition full_storage (cs : list City) : HookState :=
  {| cities := cs; persisted := Some cs; isLoading := false; error := None;
     called := []; quota := fun _ => false |}.

(** With the storage full, the city leaves the list on the screen and
    stays in storage: a reload brings it back. *)
Example removeCity_storage_full :
  let st' := (removeCity no_options "city1" (full_storage two_cities)).1.2 in
  cities st' = [sample "city2" "City 2" "US"] /\
  persisted st' = Some two_cities.
Proof. split; reflexivity. Qed.

(** *** Adding *)

Lemma find_same_city_none (city : City) (cs : list City) :
  find (same_city city) cs = None <->
  forall c, c ∈ cs -> same_city city c = false.
Proof.
  induction cs as [|d cs IH]; simpl.
  - split; [intros _ c Hc; by apply not_elem_of_nil in Hc|done].
  - destruct (same_city city d) eqn:E.
    + split; [done|]. intros H. rewrite (H d) in E; [done|apply list_elem_of_here].
    + rewrite IH. split.
      * intros H c Hc. apply elem_of_cons in Hc as [->|Hc]; [done|by apply H].
      * intros H c Hc. apply H. by apply list_elem_of_further.
Qed.

(** A city with non-empty id, name and country that matches no entry by
    id or by name and country, added below the limit, is accepted: the
    promise resolves, the city stamped with the time of the call is put at
    the head of the list in state, the error is cleared, and the city is
    found by its id from then on; storage takes the new list when the
    browser lets the write through, and keeps what it held when [setItem]
    throws. *)
Theorem addCity_accepted (o : Options) (now : Z) (city : City) (st : HookState) :
  valid city ->
  (forall c, c ∈ cities st -> same_city city c = false) ->
  Z.of_nat (length (cities st)) < effective_maxCities o ->
  exists st',
    addCity o now city st = (Resolved, st') /\
    cities st' = withTimestamp city now :: cities st /\
    persisted st'
    = (if quota st (cities st') then Some (cities st') else persisted st) /\
    error st' = None /\ isLoading st' = false /\
    isCityAdded (id city) st' = true /\
    getCityById (id city) st' = Some (withTimestamp city now).
Proof.
  intros Hv Hnew Hlen. unfold addCity. rewrite addCity_try_valid by done.
  rewrite (proj2 (find_same_city_none city (cities st)) Hnew).
  destruct (Z.of_nat (length (cities st)) >=? effective_maxCities o) eqn:E;
    [apply Z.geb_le in E; lia|].
  eexists. split; [reflexivity|]. simpl.
  unfold isCityAdded, getCityById, has_id. simpl.
  rewrite String.eqb_refl. done.
Qed.

Lemma addCity_accepted_witness :
  exists st',
    addCity no_options 1700000000000 (sample "city3" "City 3" "US") (state_of two_cities)
    = (Resolved, st') /\
    cities st' = withTimestamp (sample "city3" "City 3" "US") 1700000000000 :: two_cities /\
    persisted st' = Some (cities st') /\
    error st' = None /\ isLoading st' = false /\
    isCityAdded "city3" st' = true /\
    getCityById "city3" st'
    = Some (withTimestamp (sample "city3" "City 3" "US") 1700000000000).
Proof.
  apply (addCity_accepted no_options 1700000000000 (sample "city3" "City 3" "US")
           (state_of two_cities)).
  - unfold valid. simpl. repeat split; discriminate.
  - intros c Hc. apply list_elem_of_In in Hc. simpl in Hc.
    destruct Hc as [<-|[<-|[]]]; reflexivity.
  - reflexivity.
Defined.

(** Removing a city that [addCity] has just accepted gives back the list
    as it was before, in state. *)
Theorem addCity_then_removeCity (o : Options) (now : Z) (city : City)
    (st st' : HookState) :
  addCity o now city st = (Resolved, st') ->
  exists st'',
    removeCity o (id city) st'
    = (Resolved, st'', Some (withTimestamp city now)) /\
    cities st'' = cities st.
Proof.
  unfold addCity, addCity_try.
  destruct (negb (truthy (id city)) || negb (truthy (name city))
            || negb (truthy (country city))); [intros [=]|].
  destruct (find (same_city city) (cities st)) eqn:Hf; [intros [=]|].
  destruct (Z.of_nat (length (cities st)) >=? effective_maxCities o); [intros [=]|].
  intros [= <-]. unfold removeCity. simpl.
  unfold has_id at 1. simpl. rewrite String.eqb_refl.
  eexists. split; [reflexivity|]. simpl.
  unfold has_id at 1. simpl. rewrite String.eqb_refl. simpl.
  apply filter_not_id_all. intros c Hc Hid.
  pose proof (proj1 (find_same_city_none city (cities st)) Hf c Hc) as Hs.
  unfold same_city in Hs. rewrite Hid, String.eqb_refl in Hs. done.
Qed.

Lemma addCity_then_removeCity_witness :
  exists st'',
    removeCity no_options "city3"
      (addCity no_options 1700000000000 (sample "city3" "City 3" "US")
         (state_of two_cities)).2
    = (Resolved, st'', Some (withTimestamp (sample "city3" "City 3" "US") 1700000000000)) /\
    cities st'' = two_cities.
Proof.
  apply (addCity_then_removeCity no_options 1700000000000 (sample "city3" "City 3" "US")
           (state_of two_cities)).
  reflexivity.
Defined.

(** *** What a sequence of operations keeps *)

(** A call of [addCity], [removeCity] or [clearAllCities]. *)
Inductive Operation :=
| Add (now : Z) (city : City)
| Remove (cityId : string)
| Clear.

(** The state after one operation, each call made on the state the one
    before left. *)
Definition after (o : Options) (st : HookState) (op : Operation) : HookState :=
  match op with
  | Add now city => (addCity o now city st).2
  | Remove cityId => (removeCity o cityId st).1.2
  | Clear => (clearAllCities st).2
  end.

Definition after_all (o : Options) (ops : list Operation) (st : HookState) : HookState :=
  foldl (after o) st ops.

(** No two cities share an id, and no two share name and country; every
    city has its required fields; the list is within the limit. *)
Definition well_kept (o : Options) (st : HookState) : Prop :=
  NoDup (id <$> cities st) /\
  NoDup ((fun c => (name c, country c)) <$> cities st) /\
  Forall valid (cities st) /\
  Z.of_nat (length (cities st)) <= Z.max 0 (effective_maxCities o).

(** State and storage go together: storage holds the list that is in
    state, or holds no entry while the list is empty, as on a first
    visit. *)
Definition in_step (st : HookState) : Prop :=
  persisted st = Some (cities st) \/ (persisted st = None /\ cities st = []).

Lemma filter_sublist {A : Type} (p : A -> bool) (l : list A) :
  List.filter p l `sublist_of` l.
Proof.
  induction l as [|x l IH]; simpl; [constructor|].
  destruct (p x); by constructor.
Qed.

Lemma well_kept_after (o : Options) (st : HookState) (op : Operation) :
  well_kept o st -> well_kept o (after o st op).
Proof.
  intros (Hid & Hnc & Hval & Hlen). destruct op as [now city|cityId|]; simpl.
  - unfold addCity, addCity_try.
    destruct (negb (truthy (id city)) || negb (truthy (name city))
              || negb (truthy (country city))) eqn:Hv; [done|].
    destruct (find (same_city city) (cities st)) eqn:Hf; [done|].
    destruct (Z.of_nat (length (cities st)) >=? effective_maxCities o) eqn:Hmax; [done|].
    pose proof (proj1 (find_same_city_none city (cities st)) Hf) as Hnew.
    unfold well_kept. simpl. repeat split.
    + apply NoDup_cons. split; [|done].
      intros Hin. apply list_elem_of_fmap in Hin as (c & Hc & Hin).
      specialize (Hnew c Hin). unfold same_city in Hnew.
      rewrite <- Hc, String.eqb_refl in Hnew. done.
    + apply NoDup_cons. split; [|done].
      intros Hin. apply list_elem_of_fmap in Hin as (c & Hc & Hin).
      specialize (Hnew c Hin). unfold same_city in Hnew.
      injection Hc as Hn Hco.
      rewrite <- Hn, <- Hco, !String.eqb_refl in Hnew.
      by rewrite orb_true_r in Hnew.
    + apply Forall_cons. split; [|done]. unfold valid, truthy in *. simpl.
      apply orb_false_iff in Hv as [Hv Hc]. apply orb_false_iff in Hv as [Hi Hn].
      repeat split; intros E; rewrite E in *; done.
    + rewrite Z.geb_leb in Hmax. apply Z.leb_gt in Hmax. lia.
  - unfold removeCity. destruct (find (has_id cityId) (cities st)); [|done].
    unfold well_kept. simpl.
    pose proof (filter_sublist (fun c => negb (has_id cityId c)) (cities st)) as Hsub.
    repeat split.
    + eapply sublist_NoDup; [exact Hid|]. by apply fmap_sublist.
    + eapply sublist_NoDup; [exact Hnc|]. by apply fmap_sublist.
    + rewrite Forall_forall in Hval |- *. intros d Hd. apply Hval.
      by apply elem_of_filter_not_id in Hd as [Hd _].
    + apply sublist_length in Hsub. lia.
  - unfold well_kept. simpl. repeat split; try constructor. lia.
Qed.

(** No operation changes what the browser lets through. *)
Lemma quota_after (o : Options) (st : HookState) (op : Operation) :
  quota (after o st op) = quota st.
Proof.
  destruct op as [now city|cityId|]; simpl; [| |done].
  - unfold addCity. by destruct (addCity_try o now city (cities st)) as [m|[cs c]].
  - unfold removeCity. by destruct (find (has_id cityId) (cities st)).
Qed.

(** In a browser that takes every write, state and storage stay
    together. *)
Lemma in_step_after (o : Options) (st : HookState) (op : Operation) :
  (forall cs, quota st cs = true) -> in_step st -> in_step (after o st op).
Proof.
  intros Hq Hstep. destruct op as [now city|cityId|]; simpl.
  - unfold addCity. destruct (addCity_try o now city (cities st)) as [m|[cs c]]; [done|].
    left. simpl. unfold written. by rewrite Hq.
  - unfold removeCity. destruct (find (has_id cityId) (cities st)); [|done].
    left. simpl. unfold written. by rewrite Hq.
  - left. simpl. unfold written. by rewrite Hq.
Qed.

(** Whatever calls of [addCity], [removeCity] and [clearAllCities] are
    made from a state whose list is empty, accepted or rejected, and
    whether or not the browser takes the writes, the list in state never
    holds two cities with the same id, nor two with the same name and
    country, nor a city with an empty id, name or country, nor more cities
    than the limit (none when the limit is negative).  And in a browser
    that takes every write, storage keeps holding the list that is in
    state, once it did or held no entry at the start. *)
Theorem city_list_well_kept (o : Options) (ops : list Operation) (st : HookState) :
  cities st = [] ->
  well_kept o (after_all o ops st) /\
  ((forall cs, quota st cs = true) -> in_step st -> in_step (after_all o ops st)).
Proof.
  intros Hempty.
  assert (well_kept o st) as H0.
  { unfold well_kept. rewrite Hempty. simpl. repeat split; try constructor. lia. }
  clear Hempty. revert st H0.
  induction ops as [|op ops IH]; intros st Hst; [done|].
  simpl. destruct (IH (after o st op) (well_kept_after o st op Hst)) as [IH1 IH2].
  split; [done|]. intros Hq Hstep. apply IH2.
  - intros cs. by rewrite quota_after.
  - by apply in_step_after.
Qed.

(** A first visit: no list in state, no entry in storage, a browser
    that takes every write. *)
Definition first_visit : HookState :=
  {| cities := []; persisted := None; isLoading := false; error := None;
     called := []; quota := fun _ => true |}.

Lemma city_list_well_kept_witness :
  let ops := [Add 1700000000000 (sample "city1" "City 1" "US");
              Add 1700000000001 (sample "city1" "City 1" "US");
              Add 1700000000002 (sample "city2" "City 2" "US");
              Remove "city1"] in
  well_kept no_options (after_all no_options ops first_visit) /\
  ((forall cs, quota first_visit cs = true) -> in_step first_visit ->
   in_step (after_all no_options ops first_visit)).
Proof.
  apply (city_list_well_kept no_options
           [Add 1700000000000 (sample "city1" "City 1" "US");
            Add 1700000000001 (sample "city1" "City 1" "US");
            Add 1700000000002 (sample "city2" "City 2" "US");
            Remove "city1"] first_visit).
  reflexivity.
Defined.

(** With the storage full, the list grows on the screen and storage
    stays behind. *)
Example addCity_storage_full :
  let st' := (addCity no_options 1700000000000 (sample "city3" "City 3" "US")
                (full_storage two_cities)).2 in
  length (cities st') = 3%nat /\ persisted st' = Some two_cities.
Proof. split; reflexivity. Qed.

(** *** Updating *)

Lemma findIndex_none {A : Type} (p : A -> bool) (l : list A) :
  findIndex p l = None <-> forall x, x ∈ l -> p x = false.
Proof.
  induction l as [|y l IH]; simpl.
  - split; [intros _ x Hx; by apply not_elem_of_nil in Hx|done].
  - destruct (p y) eqn:E.
    + split; [done|]. intros H. rewrite (H y) in E; [done|apply list_elem_of_here].
    + destruct (findIndex p l) as [i|] eqn:Hi; simpl.
      * split; [done|]. intros H.
        assert (Some i = None) as Habs; [|done].
        apply (proj2 IH). intros x Hx. apply H. by apply list_elem_of_further.
      * split; [|done]. intros _ x Hx.
        apply elem_of_cons in Hx as [->|Hx]; [done|]. by apply (proj1 IH).
Qed.

Lemma findIndex_some {A : Type} (p : A -> bool) (l : list A) (i : nat) :
  findIndex p l = Some i ->
  exists x, l !! i = Some x /\ p x = true /\ find p l = Some x /\
            forall j y, (j < i)%nat -> l !! j = Some y -> p y = false.
Proof.
  revert i. induction l as [|y l IH]; intros i; simpl; [done|].
  destruct (p y) eqn:E.
  - intros [= <-]. exists y. repeat split; try done. intros j z Hj. lia.
  - destruct (findIndex p l) as [k|] eqn:Hk; simpl; [|done].
    intros [= <-]. destruct (IH k eq_refl) as (x & Hx & Hp & Hf & Hbefore).
    exists x. repeat split; try done.
    intros [|j] z Hj Hz; simpl in Hz; [by injection Hz as <-|].
    apply (Hbefore j z); [lia|done].
Qed.

(** [updateCity] on an id that is not in the list rejects with "City not
    found in your list" and changes neither state nor storage.  On an id
    that is in the list it resolves: in state, the first city with that id
    gets the given properties over its own, every other entry stays what
    and where it was, and the length is kept; storage takes the new list
    when the browser lets the write through, and keeps what it held when
    [setItem] throws. *)
Theorem updateCity_first_match (o : Options) (cityId : string) (updates : CityUpdates)
    (st : HookState) :
  ((forall c, c ∈ cities st -> id c <> cityId) ->
   exists st',
     updateCity o cityId updates st = (Rejected "City not found in your list", st') /\
     cities st' = cities st /\ persisted st' = persisted st) /\
  ((exists c, c ∈ cities st /\ id c = cityId) ->
   exists st' i c,
     updateCity o cityId updates st = (Resolved, st') /\
     cities st !! i = Some c /\ id c = cityId /\
     (forall j d, (j < i)%nat -> cities st !! j = Some d -> id d <> cityId) /\
     cities st' !! i = Some (merged c updates) /\
     (forall j, j <> i -> cities st' !! j = cities st !! j) /\
     length (cities st') = length (cities st) /\
     persisted st'
     = (if quota st (cities st') then Some (cities st') else persisted st)).
Proof.
  unfold updateCity. split.
  - intros H.
    assert (findIndex (has_id cityId) (cities st) = None) as ->.
    { apply findIndex_none. intros c Hc. unfold has_id.
      apply String.eqb_neq. by apply H. }
    eexists. split; [reflexivity|done].
  - intros (c & Hin & Hid).
    destruct (findIndex (has_id cityId) (cities st)) as [i|] eqn:Hi.
    2:{ pose proof (proj1 (findIndex_none _ _) Hi c Hin) as Hc.
        unfold has_id in Hc. apply String.eqb_neq in Hc. done. }
    destruct (findIndex_some _ _ _ Hi) as (x & Hx & Hp & _ & Hbefore).
    unfold has_id in Hp. apply String.eqb_eq in Hp.
    exists (stored (alter (fun c => merged c updates) i (cities st)) st), i, x.
    split; [done|]. split; [done|]. split; [done|]. simpl. split; [|split; [|split]].
    + intros j d Hj Hd. specialize (Hbefore j d Hj Hd). unfold has_id in Hbefore.
      by apply String.eqb_neq.
    + by rewrite list_lookup_alter_eq, Hx.
    + intros j Hj. by apply list_lookup_alter_ne.
    + split; [apply length_alter|done].
Qed.

Example updateCity_marks_favorite :
  cities (updateCity no_options "city2" (set_favorite true) (state_of two_cities)).2
  = [sample "city1" "City 1" "US";
     merged (sample "city2" "City 2" "US") (set_favorite true)].
Proof. reflexivity. Qed.

(** *** Reordering *)

Lemma splice_start_le (start : Z) (len : nat) : (splice_start start len <= len)%nat.
Proof. unfold splice_start. destruct (Z.ltb_spec start 0); lia. Qed.

Lemma splice_start_in_range (start : Z) (len : nat) :
  0 <= start < Z.of_nat len -> splice_start start len = Z.to_nat start.
Proof.
  intros H. unfold splice_start.
  destruct (start <? 0) eqn:E; [apply Z.ltb_lt in E; lia|]. lia.
Qed.

(** [reorderCities] with two different indices, the first of which
    points into the list (from the front, or from the end when negative):
    the list handed to [setCities] has no hole, holds the same cities as
    before, each as often, and when the second index points into the list
    from the front, the city that was at the first index is at the
    second. *)
Theorem reorderCities_moves (startIndex endIndex : Z) (cs : list City) :
  startIndex <> endIndex ->
  - Z.of_nat (length cs) <= startIndex < Z.of_nat (length cs) ->
  exists cs',
    reorderCities startIndex endIndex cs = Some (Some <$> cs') /\
    cs' ≡ₚ cs /\
    length cs' = length cs /\
    (0 <= startIndex -> 0 <= endIndex < Z.of_nat (length cs) ->
     cs' !! Z.to_nat endIndex = cs !! Z.to_nat startIndex).
Proof.
  intros Hne Hs. unfold reorderCities, moved.
  destruct (startIndex =? endIndex) eqn:E; [apply Z.eqb_eq in E; done|].
  set (from := splice_start startIndex (length cs)).
  assert (from < length cs)%nat as Hfrom.
  { unfold from, splice_start. destruct (Z.ltb_spec startIndex 0); lia. }
  destruct (lookup_lt_is_Some_2 cs from Hfrom) as [x Hx]. rewrite Hx.
  rewrite <- delete_take_drop.
  set (rest := delete from cs).
  set (to := splice_start endIndex (length rest)).
  assert (length rest = pred (length cs)) as Hrest.
  { unfold rest. rewrite length_delete; [lia|by eexists]. }
  exists (take to rest ++ x :: drop to rest).
  split; [by rewrite fmap_app, fmap_cons|].
  assert (take to rest ++ x :: drop to rest ≡ₚ cs) as Hperm.
  { rewrite <- Permutation_middle, take_drop. symmetry. by apply delete_Permutation. }
  split; [done|]. split; [by rewrite Hperm|].
  intros H0 He.
  assert (to = Z.to_nat endIndex) as Hto.
  { unfold to, splice_start. rewrite Hrest.
    destruct (Z.ltb_spec endIndex 0); lia. }
  assert (from = Z.to_nat startIndex) as Hf
    by (apply splice_start_in_range; lia).
  rewrite <- Hto, <- Hf, Hx.
  apply list_lookup_middle. rewrite length_take. lia.
Qed.

Lemma reorderCities_moves_witness :
  exists cs',
    reorderCities 0 2 [sample "city1" "City 1" "US"; sample "city2" "City 2" "US";
                       sample "city3" "City 3" "US"] = Some (Some <$> cs') /\
    cs' ≡ₚ [sample "city1" "City 1" "US"; sample "city2" "City 2" "US";
            sample "city3" "City 3" "US"] /\
    length cs' = 3%nat /\
    (0 <= 0 -> 0 <= 2 < 3 -> cs' !! 2%nat = Some (sample "city1" "City 1" "US")).
Proof.
  apply (reorderCities_moves 0 2 [sample "city1" "City 1" "US";
                                  sample "city2" "City 2" "US";
                                  sample "city3" "City 3" "US"]).
  - discriminate.
  - simpl. lia.
Defined.

(** [reorderCities] with a first index at or beyond the end of the list
    takes nothing out and still puts something back: the list handed to
    [setCities] is one longer and holds [undefined] beside the cities it
    had. *)
Theorem reorderCities_beyond_the_end (startIndex endIndex : Z) (cs : list City) :
  startIndex <> endIndex ->
  Z.of_nat (length cs) <= startIndex ->
  exists l,
    reorderCities startIndex endIndex cs = Some l /\
    length l = S (length cs) /\
    None ∈ l /\
    (forall c, Some c ∈ l <-> c ∈ cs).
Proof.
  intros Hne Hs. unfold reorderCities, moved.
  destruct (startIndex =? endIndex) eqn:E; [apply Z.eqb_eq in E; done|].
  assert (splice_start startIndex (length cs) = length cs) as ->.
  { unfold splice_start. destruct (Z.ltb_spec startIndex 0); lia. }
  rewrite lookup_ge_None_2 by lia.
  rewrite firstn_all, skipn_all2, app_nil_r by lia.
  set (to := splice_start endIndex (length cs)).
  eexists. split; [reflexivity|]. split; [|split].
  - rewrite length_app. simpl. rewrite !length_fmap, length_take, length_drop.
    pose proof (splice_start_le endIndex (length cs)). fold to in H. lia.
  - apply elem_of_app. right. apply list_elem_of_here.
  - intros c. rewrite elem_of_app, elem_of_cons, !list_elem_of_fmap.
    assert (c ∈ cs <-> c ∈ take to cs \/ c ∈ drop to cs) as ->
      by (by rewrite <- elem_of_app, take_drop).
    split.
    + intros [(d & [= <-] & Hd)|[[=]|(d & [= <-] & Hd)]]; [by left|by right].
    + intros [Hc|Hc]; [left|right; right]; by exists c.
Qed.

Lemma reorderCities_beyond_the_end_witness :
  exists l,
    reorderCities 5 0 [sample "city1" "City 1" "US"] = Some l /\
    length l = 2%nat /\
    None ∈ l /\
    (forall c, Some c ∈ l <-> c ∈ [sample "city1" "City 1" "US"]).
Proof.
  apply (reorderCities_beyond_the_end 5 0 [sample "city1" "City 1" "US"]).
  - discriminate.
  - simpl. lia.
Defined.

(** *** Recent cities *)

Example addToRecent_moves_to_front :
  id <$> addToRecent 5 (sample "b" "Lyon" "FR")
           [sample "a" "Paris" "FR"; sample "b" "Lyon" "FR"; sample "c" "Nice" "FR"]
  = ["b"; "a"; "c"].
Proof. reflexivity. Qed.

Example addToRecent_negative_limit :
  id <$> addToRecent (-1) (sample "b" "Lyon" "FR") [sample "a" "Paris" "FR"] = ["b"].
Proof. reflexivity. Qed.

(** [addToRecent] with a limit that is not negative: the list kept has
    at most that many cities; with a limit of one or more the city added
    comes first; every other city kept was in the list before, has another
    id than the city added, and keeps its place among the others; and when
    the ids in the list were all different they still are. *)
Theorem addToRecent_keeps_recent (maxRecent : Z) (city : City) (prevRecent : list City) :
  0 <= maxRecent ->
  let recent := addToRecent maxRecent city prevRecent in
  Z.of_nat (length recent) <= maxRecent /\
  (1 <= maxRecent -> recent !! 0%nat = Some city) /\
  recent `sublist_of` city :: List.filter (fun c => negb (has_id (id city) c)) prevRecent /\
  (forall c i, recent !! S i = Some c -> c ∈ prevRecent /\ id c <> id city) /\
  (NoDup (id <$> prevRecent) -> NoDup (id <$> recent)).
Proof.
  intros Hmax recent. subst recent. unfold addToRecent, slice_to.
  set (filtered := List.filter (fun c => negb (has_id (id city) c)) prevRecent).
  set (n := splice_start maxRecent (length (city :: filtered))).
  assert (Z.of_nat n <= maxRecent) as Hn.
  { unfold n, splice_start. destruct (Z.ltb_spec maxRecent 0); lia. }
  assert (1 <= maxRecent -> (0 < n)%nat) as Hpos.
  { unfold n, splice_start. destruct (Z.ltb_spec maxRecent 0); simpl length; lia. }
  split; [rewrite length_take; lia|]. split; [|split; [|split]].
  - intros H1. specialize (Hpos H1). destruct n; [lia|done].
  - apply sublist_take.
  - intros c i Hc. destruct n as [|n']; [done|]. simpl in Hc.
    apply list_elem_of_lookup_2, elem_of_take in Hc as (j & Hj & _).
    apply list_elem_of_lookup_2 in Hj. by apply elem_of_filter_not_id in Hj.
  - intros Hnd. eapply sublist_NoDup; [|apply fmap_sublist, sublist_take].
    simpl. apply NoDup_cons. split.
    + intros Hin. apply list_elem_of_fmap in Hin as (c & Hc & Hin).
      by apply elem_of_filter_not_id in Hin as [_ Hne].
    + eapply sublist_NoDup; [exact Hnd|]. apply fmap_sublist, filter_sublist.
Qed.

Lemma addToRecent_keeps_recent_witness :
  let recent := addToRecent 2 (sample "b" "Lyon" "FR")
                  [sample "a" "Paris" "FR"; sample "b" "Lyon" "FR";
                   sample "c" "Nice" "FR"] in
  Z.of_nat (length recent) <= 2 /\
  (1 <= 2 -> recent !! 0%nat = Some (sample "b" "Lyon" "FR")) /\
  recent `sublist_of`
    sample "b" "Lyon" "FR"
    :: List.filter (fun c => negb (has_id "b" c))
         [sample "a" "Paris" "FR"; sample "b" "Lyon" "FR"; sample "c" "Nice" "FR"] /\
  (forall c i, recent !! S i = Some c ->
     c ∈ [sample "a" "Paris" "FR"; sample "b" "Lyon" "FR"; sample "c" "Nice" "FR"]
     /\ id c <> "b") /\
  (NoDup (id <$> [sample "a" "Paris" "FR"; sample "b" "Lyon" "FR";
                  sample "c" "Nice" "FR"]) -> NoDup (id <$> recent)).
Proof.
  apply (addToRecent_keeps_recent 2 (sample "b" "Lyon" "FR")
           [sample "a" "Paris" "FR"; sample "b" "Lyon" "FR"; sample "c" "Nice" "FR"]).
  lia.
Defined.

(** *** Favorites *)

Lemma filter_alter_same {A : Type} (p : A -> bool) (h : A -> A) (i : nat) (l : list A) :
  (forall x, l !! i = Some x -> p (h x) = p x /\ (p x = true -> h x = x)) ->
  List.filter p (alter h i l) = List.filter p l.
Proof.
  revert i. induction l as [|y l IH]; intros i H; [by destruct i|].
  destruct i as [|i].
  - simpl. destruct (H y eq_refl) as [Hp Hx]. rewrite Hp.
    destruct (p y) eqn:E; [by rewrite Hx|done].
  - change (alter h (S i) (y :: l)) with (y :: alter h i l). simpl.
    rewrite (IH i); [done|]. intros x Hxi. by apply H.
Qed.

Lemma findIndex_alter_same {A : Type} (p : A -> bool) (h : A -> A) (i : nat) (l : list A) :
  (forall x, p (h x) = p x) ->
  findIndex p (alter h i l) = findIndex p l /\
  find p (alter h i l) = (if decide (findIndex p l = Some i) then h else fun x => x)
                           <$> find p l.
Proof.
  intros Hp. revert i. induction l as [|y l IH]; intros i; [by destruct i|].
  destruct i as [|i].
  - simpl. rewrite Hp. destruct (p y) eqn:E; [done|].
    split; [done|]. destruct (findIndex p l); simpl; by destruct (find p l).
  - change (alter h (S i) (y :: l)) with (y :: alter h i l). simpl.
    destruct (IH i) as [IH1 IH2]. destruct (p y) eqn:E; [done|].
    rewrite IH1, IH2. split; [done|].
    destruct (findIndex p l) as [k|]; cbn [fmap option_fmap option_map];
      repeat case_decide; simplify_eq; done.
Qed.

(** Toggling the favorite mark of a city twice gives back the favorite
    cities as they were, and never changes which ids are in the list or in
    what order; toggling an id that is not in the list does nothing. *)
Theorem toggleFavorite_twice (cityId : string) (st : HookState) :
  let st1 := (toggleFavorite cityId st).2 in
  let st2 := (toggleFavorite cityId st1).2 in
  favoriteCities st2 = favoriteCities st /\
  id <$> cities st2 = id <$> cities st /\
  ((forall c, c ∈ cities st -> id c <> cityId) -> st1 = st).
Proof.
  intros st1 st2. subst st1 st2. unfold toggleFavorite.
  destruct (find (has_id cityId) (cities st)) as [city|] eqn:Hf.
  2:{ simpl. by rewrite Hf. }
  unfold updateCity.
  destruct (findIndex (has_id cityId) (cities st)) as [i|] eqn:Hi.
  2:{ apply find_has_id_some in Hf as [Hin Hid].
      pose proof (proj1 (findIndex_none _ _) Hi city Hin) as Hc.
      unfold has_id in Hc. apply String.eqb_neq in Hc. done. }
  destruct (findIndex_some _ _ _ Hi) as (x & Hx & Hp & Hfx & _).
  assert (x = city) as -> by congruence.
  set (h1 := fun c => merged c (set_favorite (negb (favorite city)))).
  destruct (findIndex_alter_same (has_id cityId) h1 i (cities st)) as [Hi1 Hf1];
    [done|].
  cbn [snd stored cities]. rewrite Hf1, Hf, Hi1, Hi, decide_True by done.
  cbn [fmap option_fmap option_map snd stored cities].
  set (h2 := fun c => merged c (set_favorite (negb (favorite (h1 city))))).
  rewrite list_alter_alter_eq. unfold favoriteCities. cbn [cities].
  split; [|split].
  - apply filter_alter_same. intros y Hy.
    assert (y = city) as -> by congruence.
    unfold h2, h1, favorite. simpl. unfold favorite.
    destruct city as [? ? ? ? ? ? ? ? ? [[]|]]; simpl; split; done.
  - apply list_eq. intros j. rewrite !list_lookup_fmap.
    destruct (decide (j = i)) as [->|Hne].
    + by rewrite list_lookup_alter_eq, Hx.
    + by rewrite list_lookup_alter_ne.
  - intros Hnone. apply find_has_id_some in Hf as [Hin Hid]. by destruct (Hnone city Hin).
Qed.

(** One toggle flips the mark of the first city with the id. *)
Theorem toggleFavorite_flips (cityId : string) (st : HookState) (city : City) :
  getCityById cityId st = Some city ->
  exists city',
    getCityById cityId (toggleFavorite cityId st).2 = Some city' /\
    favorite city' = negb (favorite city) /\
    id city' = id city /\ name city' = name city /\ country city' = country city.
Proof.
  unfold getCityById, toggleFavorite. intros Hf. rewrite Hf. unfold updateCity.
  destruct (findIndex (has_id cityId) (cities st)) as [i|] eqn:Hi.
  2:{ apply find_has_id_some in Hf as [Hin Hid].
      pose proof (proj1 (findIndex_none _ _) Hi city Hin) as Hc.
      unfold has_id in Hc. apply String.eqb_neq in Hc. done. }
  set (h1 := fun c => merged c (set_favorite (negb (favorite city)))).
  destruct (findIndex_alter_same (has_id cityId) h1 i (cities st)) as [_ Hf1];
    [done|].
  cbn [snd stored cities]. rewrite Hf1, Hf, decide_True by done.
  exists (h1 city). split; [done|]. unfold h1, favorite. simpl. done.
Qed.

Lemma toggleFavorite_flips_witness :
  exists city',
    getCityById "city2" (toggleFavorite "city2" (state_of two_cities)).2 = Some city' /\
    favorite city' = negb (favorite (sample "city2" "City 2" "US")) /\
    id city' = "city2" /\ name city' = "City 2" /\ country city' = "US".
Proof.
  apply (toggleFavorite_flips "city2" (state_of two_cities) (sample "city2" "City 2" "US")).
  reflexivity.
Defined.

End CityOps.

(** ** The retry loop: how a request ends *)

Module RetryOutcomes.

Import Retry.

Section Outcomes.

Context {T : Type}.

Implicit Types (env : Env T) (error : Z -> JsError).

(** With a configured attempt count of zero or less the loop does not
    run: no request is sent, and what [makeRequest] throws is
    [undefined]. *)
Theorem makeRequest_without_attempts (retry : option RetryConfig) env :
  attempts_of retry <= 0 ->
  makeRequest_loop retry env = (Thrown None, []).
Proof.
  intros H. unfold makeRequest_loop. by rewrite seqZ_nil by lia.
Qed.




End Outcomes.

(** *** Sample runs *)

(** Two failures with status 500, then the bare sample response. *)
Definition third_time_lucky : Env Z :=
  {| signal := None;
     attempt := fun k =>
       {| fetched := if k <? 3
                     then Responded (NotOk 500 "Internal Server Error" None)
                     else Responded (Ok (Json 7));
          aborted_in_flight := false;
          aborted_in_wait := false |} |}.

Lemma makeRequest_without_attempts_witness :
  makeRequest_loop (Some {| attempts := 0; delay := 1000 |}) third_time_lucky
  = (Thrown None, []).
Proof.
  apply (makeRequest_without_attempts (Some {| attempts := 0; delay := 1000 |})
           third_time_lucky).
  simpl. lia.
Defined.



Lemma client_error_not_retried_witness :
  attempt_loop 3 1000 false
    (attempt (always (T := unit) (NotOk 404 "Not Found" None))) [1; 2; 3] false None
  = (Thrown (Some (new_Error ("OpenWeather API error " +:+ pretty 404 +:+ ": "
                              +:+ or_text None "Not Found"))),
     [Request 1]).
Proof.
  apply (client_error_not_retried 3 1000 false
           (attempt (always (T := unit) (NotOk 404 "Not Found" None)))
           1 [2; 3] false None 404 "Not Found" None); try reflexivity.
  lia.
Defined.

Lemma linear_backoff_increasing_witness : 1000 < 2000.
Proof.
  apply (linear_backoff_increasing 1000 1 2 0 1000 2000); [lia|reflexivity|reflexivity].
Defined.

End RetryOutcomes.

(** ** The in-flight request map: after and around a request *)

Module ClientQueue.

Import Client.

(** [clearQueue()]. *)
Definition clearQueue (s : Service) : Service :=
  {| requestQueue := ∅;
     promises := promises s;
     next := next s;
     counters := counters s;
     makeRequests := makeRequests s;
     fetches := fetches s |}.

(** [getUsageStats()]: the request count, the last request time and the
    size of the queue. *)
Definition getUsageStats (s : Service) : Z * Z * nat :=
  (Governor.requestCount (counters s), Governor.lastRequestTime (counters s),
   size (requestQueue s)).

Lemma settle_other (cfg : Config) (p q : nat) (late : N) (aborted : bool)
    (attempt : Z -> Retry.Attempt Transformer.Response.t) (s : Service) :
  q <> p ->
  promises (settle cfg p late aborted attempt s) !! q = promises s !! q /\
  next (settle cfg p late aborted attempt s) = next s.
Proof.
  intros Hne. unfold settle, completed, timer_fired.
  destruct (promises s !! p) as [[key sig due|key sig|o]|] eqn:Hp; simpl.
  - rewrite lookup_insert_eq.
    destruct (Retry.makeRequest_loop _ _) as [o events]. simpl.
    by rewrite !lookup_insert_ne.
  - rewrite Hp. destruct (Retry.makeRequest_loop _ _) as [o events]. simpl.
    by rewrite lookup_insert_ne.
  - by rewrite Hp.
  - by rewrite Hp.
Qed.


Lemma getCurrentWeather_next (cfg : Config) (c : Coordinates) (has_signal : bool)
    (now : Z) (s : Service) :
  requestQueue s !! cacheKey c = None ->
  next (getCurrentWeather cfg c has_signal now s).1 = S (next s).
Proof.
  intros Hfree. unfold getCurrentWeather. rewrite Hfree.
  by destruct (Governor.checkRateLimit_enter _ _ _).
Qed.

Lemma getCurrentWeather_other_key (cfg : Config) (c : Coordinates) (has_signal : bool)
    (now : Z) (s : Service) (key : string) :
  key <> cacheKey c ->
  requestQueue (getCurrentWeather cfg c has_signal now s).1 !! key
  = requestQueue s !! key.
Proof.
  intros Hne. unfold getCurrentWeather.
  destruct (requestQueue s !! cacheKey c); [done|].
  destruct (Governor.checkRateLimit_enter _ _ _); simpl;
    by rewrite lookup_insert_ne.
Qed.

(** Callers that join a request in flight leave the service as the first
    call left it: the rate limiter counts the shared request once,
    however many callers wait for it. *)
Theorem joining_calls_leave_service (cfg : Config) (c : Coordinates)
    (has_signal : bool) (now : Z) (calls : list (bool * Z)) (s : Service) :
  requestQueue s !! cacheKey c = None ->
  (concurrent_calls cfg c ((has_signal, now) :: calls) s).1
  = (getCurrentWeather cfg c has_signal now s).1.
Proof.
  intros Hfree. cbn [concurrent_calls].
  pose proof (getCurrentWeather_starts cfg c has_signal now s Hfree) as Hfirst.
  simpl in Hfirst.
  destruct (getCurrentWeather cfg c has_signal now s) as [s1 p].
  simpl in *. destruct Hfirst as (-> & Hq & _).
  by rewrite (concurrent_calls_join cfg c calls s1 (next s) Hq).
Qed.

Lemma joining_calls_leave_service_witness :
  (concurrent_calls defaults here [(false, 5000); (false, 5001); (true, 5002)]
     new_service).1
  = (getCurrentWeather defaults here false 5000 new_service).1.
Proof.
  apply (joining_calls_leave_service defaults here false 5000
           [(false, 5001); (true, 5002)] new_service).
  reflexivity.
Defined.



(** Two calls whose coordinates give different keys do not share a
    request: each starts its own, and both are in the map. *)
Theorem different_keys_not_coalesced (cfg : Config) (c1 c2 : Coordinates)
    (signal1 signal2 : bool) (now1 now2 : Z) (s : Service) :
  cacheKey c1 <> cacheKey c2 ->
  requestQueue s !! cacheKey c1 = None ->
  requestQueue s !! cacheKey c2 = None ->
  let first := getCurrentWeather cfg c1 signal1 now1 s in
  let second := getCurrentWeather cfg c2 signal2 now2 first.1 in
  second.2 <> first.2 /\
  makeRequests second.1 = S (S (makeRequests s)) /\
  requestQueue second.1 !! cacheKey c1 = Some first.2 /\
  requestQueue second.1 !! cacheKey c2 = Some second.2.
Proof.
  intros Hne H1 H2 first second.
  pose proof (getCurrentWeather_starts cfg c1 signal1 now1 s H1) as Hfirst.
  fold first in Hfirst. simpl in Hfirst.
  destruct Hfirst as (Hp & Hq & _ & Hm & _).
  assert (requestQueue first.1 !! cacheKey c2 = None) as H2'.
  { unfold first. rewrite getCurrentWeather_other_key; done. }
  pose proof (getCurrentWeather_starts cfg c2 signal2 now2 first.1 H2') as Hsecond.
  fold second in Hsecond. simpl in Hsecond.
  destruct Hsecond as (Hp2 & Hq2 & _ & Hm2 & _).
  assert (next first.1 = S (next s)) as Hnext by (by apply getCurrentWeather_next).
  split; [rewrite Hp2, Hnext, Hp; lia|]. split; [by rewrite Hm2, Hm|]. split.
  - unfold second. rewrite getCurrentWeather_other_key by done. by rewrite Hp.
  - by rewrite Hp2.
Qed.

Lemma different_keys_not_coalesced_witness :
  let first := getCurrentWeather defaults here false 5000 new_service in
  let second := getCurrentWeather defaults {| lat := "10"; lon := "21" |} false 5001
                  first.1 in
  second.2 <> first.2 /\
  makeRequests second.1 = 2%nat /\
  requestQueue second.1 !! cacheKey here = Some first.2 /\
  requestQueue second.1 !! cacheKey {| lat := "10"; lon := "21" |} = Some second.2.
Proof.
  apply (different_keys_not_coalesced defaults here {| lat := "10"; lon := "21" |}
           false false 5000 5001 new_service).
  - discriminate.
  - reflexivity.
  - reflexivity.
Defined.

(** [clearQueue] while a request is in flight: the next call for the same
    coordinates starts a second request, and when the first request ends
    its [finally] clause removes the entry of the second, which is still
    pending, so a call after that would start a third. *)
Theorem clearQueue_in_flight (cfg : Config) (c : Coordinates)
    (has_signal again_signal : bool) (now again : Z) (late : N) (aborted : bool)
    (attempt : Z -> Retry.Attempt Transformer.Response.t) (s : Service) :
  requestQueue s !! cacheKey c = None ->
  let first := getCurrentWeather cfg c has_signal now s in
  let second := getCurrentWeather cfg c again_signal again (clearQueue first.1) in
  let ended := settle cfg first.2 late aborted attempt second.1 in
  second.2 <> first.2 /\
  makeRequests second.1 = S (S (makeRequests s)) /\
  requestQueue second.1 !! cacheKey c = Some second.2 /\
  requestQueue ended !! cacheKey c = None /\
  exists promise,
    promises ended !! second.2 = Some promise /\ started c again_signal promise.
Proof.
  intros Hfree first second ended.
  pose proof (getCurrentWeather_starts cfg c has_signal now s Hfree) as Hfirst.
  fold first in Hfirst. simpl in Hfirst.
  destruct Hfirst as (Hp & Hq & (promise & Hpr & Hst) & Hm & Hf).
  assert (next first.1 = S (next s)) as Hnext
    by (by apply getCurrentWeather_next).
  assert (requestQueue (clearQueue first.1) !! cacheKey c = None) as Hfree'
    by apply lookup_empty.
  pose proof (getCurrentWeather_starts cfg c again_signal again (clearQueue first.1) Hfree')
    as Hsecond.
  fold second in Hsecond. simpl in Hsecond.
  destruct Hsecond as (Hp2 & Hq2 & (promise2 & Hpr2 & Hst2) & Hm2 & _).
  rewrite Hnext in Hp2, Hq2, Hpr2.
  assert (promises second.1 !! next s = Some promise) as Hkept.
  { unfold second, getCurrentWeather. rewrite Hfree'.
    destruct (Governor.checkRateLimit_enter _ _ _); simpl;
      rewrite lookup_insert_ne by (rewrite Hnext; lia); done. }
  destruct (settle_started cfg c has_signal (next s) promise late aborted attempt
              second.1 Hkept Hst) as (Hq' & _).
  destruct (settle_other cfg (next s) (S (next s)) late aborted attempt second.1
              ltac:(lia)) as [Ho _].
  split; [rewrite Hp2, Hp; lia|]. split; [by rewrite Hm2, Hm|].
  split; [by rewrite Hp2|]. split.
  - unfold ended. rewrite Hp, Hq'. apply lookup_delete_eq.
  - exists promise2. unfold ended. rewrite Hp, Hp2, Ho. done.
Qed.

Lemma clearQueue_in_flight_witness :
  let first := getCurrentWeather defaults here false 5000 new_service in
  let second := getCurrentWeather defaults here false 5001 (clearQueue first.1) in
  let ended := settle defaults first.2 0 false reliable second.1 in
  second.2 <> first.2 /\
  makeRequests second.1 = 2%nat /\
  requestQueue second.1 !! cacheKey here = Some second.2 /\
  requestQueue ended !! cacheKey here = None /\
  exists promise,
    promises ended !! second.2 = Some promise /\ started here false promise.
Proof.
  apply (clearQueue_in_flight defaults here false false 5000 5001 0 false reliable
           new_service).
  reflexivity.
Defined.

End ClientQueue.

(** ** The rate limiter: delays and the counter *)

Module GovernorBounds.

Import Governor.

(** A call made when the clock is not behind the window start is let
    through at the time of the call or, when it has to wait, no later than
    one window after it, the lateness of the timer apart. *)
Theorem checkRateLimit_delay_bounded (rl : option RateLimit) (now : Z) (late : N)
    (s : State) :
  0 < window_ms rl ->
  lastRequestTime s <= now ->
  let a := (checkRateLimit rl now late s).2 in
  now <= at_time a <= now + window_ms rl + Z.of_N late.
Proof.
  intros HW Hclock a. subst a. unfold checkRateLimit, checkRateLimit_enter.
  destruct (Z.gtb_spec (now - lastRequestTime s) (window_ms rl)) as [He|He];
    cbn [requestCount lastRequestTime].
  - destruct (0 >=? limit rl); simpl; [unfold fires_at|]; try lia.
    pose proof (timer_delay_bounds (window_ms rl - (now - now))). lia.
  - destruct (requestCount s >=? limit rl); simpl; [unfold fires_at|]; try lia.
    pose proof (timer_delay_bounds (window_ms rl - (now - lastRequestTime s))). lia.
Qed.

Lemma checkRateLimit_delay_bounded_witness :
  let a := (checkRateLimit one_per_second 5001 0
              {| requestCount := 1; lastRequestTime := 5000 |}).2 in
  5001 <= at_time a <= 5001 + window_ms one_per_second + Z.of_N 0.
Proof.
  apply (checkRateLimit_delay_bounded one_per_second 5001 0
           {| requestCount := 1; lastRequestTime := 5000 |}); [reflexivity|simpl; lia].
Defined.

Section Counter.

Variable rl : option RateLimit.
Hypothesis limit_positive : 0 < limit rl.
Hypothesis window_positive : 0 < window_ms rl.
Hypothesis window_fits : window_ms rl <= max_delay.

(** The counter is the number of requests let through under the current
    window start, and stays between zero and the limit. *)
Definition counted (s : State) (log : list Admission) : Prop :=
  in_window (lastRequestTime s) log = requestCount s /\
  0 <= requestCount s <= limit rl /\
  (forall w, lastRequestTime s < w -> in_window w log = 0).

Lemma counted_new_window (s : State) (log : list Admission) (t : Z) :
  counted s log -> lastRequestTime s < t ->
  counted {| requestCount := 1; lastRequestTime := t |}
          ({| at_time := t; window_start := t |} :: log).
Proof.
  intros (H1 & H2 & H3) Ht. unfold counted. simpl.
  rewrite Z.eqb_refl, (H3 t Ht). repeat split; try lia.
  intros w Hw. destruct (Z.eqb_spec t w); [lia|]. apply H3. lia.
Qed.

Lemma counted_checkRateLimit (now : Z) (late : N) (s : State) (log : list Admission) :
  lastRequestTime s <= now ->
  counted s log ->
  counted (checkRateLimit rl now late s).1 ((checkRateLimit rl now late s).2 :: log).
Proof.
  intros Hclock Hc. unfold checkRateLimit.
  destruct (Z_gt_le_dec (now - lastRequestTime s) (window_ms rl)) as [He|He].
  - rewrite enter_elapsed by done. simpl. apply (counted_new_window s); [done|lia].
  - destruct (Z_lt_le_dec (requestCount s) (limit rl)) as [Hl|Hl].
    + rewrite enter_below_limit by done. simpl.
      destruct Hc as (H1 & H2 & H3). unfold counted. simpl.
      rewrite Z.eqb_refl. repeat split; try lia.
      intros w Hw. destruct (Z.eqb_spec (lastRequestTime s) w); [lia|]. by apply H3.
    + rewrite enter_at_limit by done. simpl.
      apply (counted_new_window s); [done|]. unfold fires_at.
      rewrite timer_delay_fits; lia.
Qed.

Lemma counted_run (calls : list (Z * N)) (s : State) (log : list Admission) (clock : Z) :
  lastRequestTime s <= clock ->
  in_turn rl calls s clock ->
  counted s log -> counted (run rl calls s log).1 (run rl calls s log).2.
Proof.
  revert s log clock.
  induction calls as [|[now late] calls IH]; intros s log clock Hclock Hturn Hc; [done|].
  simpl in Hturn |- *. destruct Hturn as [Hnow Hturn].
  pose proof (counted_checkRateLimit now late s log ltac:(lia) Hc) as Hstep.
  pose proof (checkRateLimit_clock rl now late s ltac:(lia)) as Hnext.
  destruct (checkRateLimit rl now late s) as [s' a]. by apply (IH _ _ (at_time a)).
Qed.

End Counter.

(** After any calls made in turn on the clock, without overlap, on a new
    service with a positive limit in force and a positive window that fits
    the 32-bit delay of [setTimeout], the request count the service
    reports is the number of requests let through under its current window
    start, and it is at least zero and at most the limit. *)
Theorem requestCount_counts_current_window (rl : option RateLimit)
    (calls : list (Z * N)) :
  0 < limit rl -> 0 < window_ms rl <= max_delay ->
  in_turn rl calls initial 0 ->
  let r := run rl calls initial [] in
  requestCount r.1 = in_window (lastRequestTime r.1) r.2 /\
  0 <= requestCount r.1 <= limit rl.
Proof.
  intros HL [HW Hfit] Hturn r.
  destruct (counted_run rl HL HW Hfit calls initial [] 0 ltac:(done) Hturn)
    as (H1 & H2 & _).
  { unfold counted. simpl. split; [done|]. split; [lia|done]. }
  by split.
Qed.

Lemma requestCount_counts_current_window_witness :
  let r := run two_per_second [(5000, 0%N); (5999, 0%N); (6001, 0%N)] initial [] in
  requestCount r.1 = in_window (lastRequestTime r.1) r.2 /\
  0 <= requestCount r.1 <= limit two_per_second.
Proof.
  apply (requestCount_counts_current_window two_per_second
           [(5000, 0%N); (5999, 0%N); (6001, 0%N)]).
  - reflexivity.
  - split; [reflexivity|vm_compute; discriminate].
  - vm_compute. intuition discriminate.
Defined.

(** With a window that does not fit, the count falls short of the
    requests let through under the window start: two went through, the
    counter says one. *)
Example requestCount_long_window :
  let r := run one_per_month [(1700000000000, 0%N); (1700000000000, 0%N)] initial [] in
  requestCount r.1 = 1 /\ in_window (lastRequestTime r.1) r.2 = 2.
Proof. split; reflexivity. Qed.

End GovernorBounds.

(** ** The local-storage hooks: persistence *)

Module CachePersistence.

Import Cache.

(** A [storage] event: the key changed in another tab and its new text,
    [None] when the key was removed. *)
Record StorageEvent := {
  event_key : string;
  newValue : option Item;
}.

(** [handleStorageChange(e)] of [useLocalStorage]: only the React state
    can change. *)
Definition handleStorageChange (key : string) (e : StorageEvent) (h : Hook) : Hook :=
  if String.eqb (event_key e) key
  then match newValue e with
       | Some item =>
           match parse item with
           | Some j => {| storedValue := Some j; storage := storage h; quota := quota h |}
           | None => h
           end
       | None => h
       end
  else h.

(** Another tab has set or removed [key]: the shared storage has
    changed, then the event reaches the hook. *)
Definition other_tab_writes (key : string) (written : string) (item : option Item)
    (h : Hook) : Hook :=
  handleStorageChange key {| event_key := written; newValue := item |}
    {| storedValue := storedValue h;
       storage := match item with
                  | Some i => <[written := i]> (storage h)
                  | None => delete written (storage h)
                  end;
       quota := quota h |}.

(** The setters and the expiry check of a hook touch no other key of the
    storage than its own, whether the browser takes their writes or
    not. *)
Theorem other_keys_untouched (StringToNumber : string -> option Z)
    (key other : string) (initialValue : Value) (expiryInMinutes : option Z)
    (now : Z) (u : Update) (h : Hook) :
  other <> key ->
  storage (setValue key u h) !! other = storage h !! other /\
  storage (removeValue key initialValue h) !! other = storage h !! other /\
  storage (setValueWithExpiry key expiryInMinutes now u h) !! other
  = storage h !! other /\
  storage (checkExpiry StringToNumber key initialValue now h) !! other
  = storage h !! other.
Proof.
  intros Hne.
  assert (forall v g, storage (setValue key v g) !! other = storage g !! other) as Hset.
  { intros v g. unfold setValue, setItem. cbn [storage].
    destruct (quota g _); simpl; [by rewrite lookup_insert_ne|done]. }
  split; [apply Hset|]. split; [|split].
  - simpl. by rewrite lookup_delete_ne.
  - unfold setValueWithExpiry.
    destruct (truthy_minutes expiryInMinutes); [|apply Hset].
    unfold setItem. destruct (quota h _); [|done].
    rewrite Hset. simpl. by rewrite lookup_insert_ne.
  - unfold checkExpiry.
    destruct (storage h !! key) as [item|]; [|done].
    destruct (truthy item); [|done].
    destruct (parse item) as [j|]; [|simpl; by rewrite lookup_delete_ne].
    destruct j; try (simpl; by rewrite lookup_delete_ne);
      match goal with
      | |- context [greater ?f ?t ?v] => destruct (greater f t v)
      end; rewrite ?Hset; simpl; by rewrite ?lookup_delete_ne.
Qed.

Lemma other_keys_untouched_witness :
  let h := mount "weather_123" (Some JNull)
             {["temperatureUnit" := Serialized (JStr "celsius")]} unlimited in
  storage (setValue "weather_123" (Plain (Some (JNum 1))) h) !! "temperatureUnit"
  = storage h !! "temperatureUnit" /\
  storage (removeValue "weather_123" (Some JNull) h) !! "temperatureUnit"
  = storage h !! "temperatureUnit" /\
  storage (setValueWithExpiry "weather_123" (Some 10) 1700000000000
             (Plain (Some (JNum 1))) h) !! "temperatureUnit"
  = storage h !! "temperatureUnit" /\
  storage (checkExpiry (fun _ => None) "weather_123" (Some JNull) 1700000000000 h)
    !! "temperatureUnit"
  = storage h !! "temperatureUnit".
Proof.
  apply (other_keys_untouched (fun _ => None) "weather_123" "temperatureUnit"
           (Some JNull) (Some 10) 1700000000000 (Plain (Some (JNum 1)))
           (mount "weather_123" (Some JNull)
              {["temperatureUnit" := Serialized (JStr "celsius")]} unlimited)).
  discriminate.
Defined.

(** A value another tab writes under the hook's key becomes the state of
    the hook; a removal in another tab, a text that does not parse, or a
    change of another key leaves the state as it was, so that after a
    removal elsewhere the hook still shows a value the storage no longer
    holds. *)
Theorem storage_event_followed (key : string) (h : Hook) :
  (forall j,
     storedValue (other_tab_writes key key (Some (Serialized j)) h) = Some j) /\
  (let h' := other_tab_writes key key None h in
   storedValue h' = storedValue h /\ storage h' !! key = None) /\
  (forall text,
     storedValue (other_tab_writes key key (Some (Text text)) h) = storedValue h) /\
  (forall other item, other <> key ->
     storedValue (other_tab_writes key other item h) = storedValue h).
Proof.
  unfold other_tab_writes, handleStorageChange. simpl.
  rewrite String.eqb_refl. repeat split; try done.
  - simpl. apply lookup_delete_eq.
  - intros other item Hne.
    destruct (String.eqb_spec other key); [done|]. done.
Qed.

(** *** [useLocalStorageState] *)

Section Group.

(** The prefix of the keys and the initial state, an object given by its
    properties. *)
Variable keyPrefix : string.
Variable initialState : gmap string Value.

(** [`${keyPrefix}_${key}`]. *)
Definition prefixed (key : string) : string := keyPrefix +:+ "_" +:+ key.

#[local] Instance prefixed_inj : Inj (=) (=) prefixed.
Proof.
  intros a b H. unfold prefixed in H.
  apply (inj (String.app keyPrefix)) in H.
  by apply (inj (String.app "_")) in H.
Qed.

(** What the initializer of [useState] puts under [key]: the stored text
    when there is one and it parses, the initial value otherwise. *)
Definition loaded (st : gmap string Item) (key : string) (initial : Value) : Value :=
  match st !! prefixed key with
  | Some item =>
      if truthy item
      then match parse item with Some j => Some j | None => initial end
      else initial
  | None => initial
  end.

(** The initializer of [useState]: the keys of the initial state, each
    loaded. *)
Definition load (st : gmap string Item) : gmap string Value :=
  map_imap (fun key initial => Some (loaded st key initial)) initialState.

(** The state of the hook, the storage of the browser, and the contents
    the browser lets the storage come to. *)
Record Group := {
  state : gmap string Value;
  stored : gmap string Item;
  capacity : gmap string Item -> bool;
}.

(** One property of [{ ...prevState, ...updates }]. *)
Definition assign (s : gmap string Value) (entry : string * Value) : gmap string Value :=
  <[entry.1 := entry.2]> s.

(** One turn of [Object.entries(updates).forEach]: the key is written,
    unless [setItem] throws, which the [catch] of the turn only
    reports. *)
Definition save (within : gmap string Item -> bool) (st : gmap string Item)
    (entry : string * Value) : gmap string Item :=
  let st' := <[prefixed entry.1 := stringify entry.2]> st in
  if within st' then st' else st.

(** [updateState(updates)], the update given by its entries in the order
    of [Object.entries]: the updates over the previous state, and each
    updated key written to storage in turn. *)
Definition updateState (updates : list (string * Value)) (g : Group) : Group :=
  {| state := foldl assign (state g) updates;
     stored := foldl (save (capacity g)) (stored g) updates;
     capacity := capacity g |}.

(** [clearState()]: back to the initial state, and each of its keys
    removed from storage. *)
Definition clearState (g : Group) : Group :=
  {| state := initialState;
     stored := filter (fun entry => forall key, key ∈ dom initialState ->
                                                entry.1 <> prefixed key)
                      (stored g);
     capacity := capacity g |}.

Lemma load_lookup (st : gmap string Item) (key : string) :
  load st !! key = loaded st key <$> initialState !! key.
Proof.
  unfold load. rewrite map_lookup_imap.
  by destruct (initialState !! key).
Qed.

(** What a run of writes under different keys leaves under one key. *)
Lemma foldl_insert_lookup {V W : Type} (f : string -> string) `{!Inj (=) (=) f}
    (h : W -> V) (entries : list (string * W)) (key : string) :
  forall m : gmap string V,
    NoDup entries.*1 ->
    let m' := foldl (fun s entry => <[f entry.1 := h entry.2]> s) m entries in
    (forall v, (key, v) ∈ entries -> m' !! f key = Some (h v)) /\
    (key ∉ entries.*1 -> m' !! f key = m !! f key).
Proof.
  induction entries as [|[k0 v0] entries IH]; intros m Hnd; simpl.
  { split; [intros v Hv; by apply not_elem_of_nil in Hv|done]. }
  apply NoDup_cons in Hnd as [Hk0 Hnd].
  destruct (IH (<[f k0 := h v0]> m) Hnd) as [IH1 IH2]. simpl in *. split.
  - intros v Hv. apply elem_of_cons in Hv as [[= <- <-]|Hv]; [|by apply IH1].
    rewrite IH2 by done. apply lookup_insert_eq.
  - intros Hnot. apply not_elem_of_cons in Hnot as [Hne Hnot].
    rewrite IH2 by done. apply lookup_insert_ne. intros E. by apply (inj f) in E.
Qed.

(** In a browser that takes every write each turn writes its key; in
    one that takes none the storage is left alone. *)
Lemma foldl_save_all (within : gmap string Item -> bool) (updates : list (string * Value)) :
  (forall st, within st = true) ->
  forall st, foldl (save within) st updates
             = foldl (fun s entry => <[prefixed entry.1 := stringify entry.2]> s) st updates.
Proof.
  intros Hq. induction updates as [|e updates IH]; intros st; [done|].
  simpl. unfold save at 2. by rewrite Hq, IH.
Qed.

Lemma foldl_save_none (within : gmap string Item -> bool) (updates : list (string * Value)) :
  (forall st, within st = false) ->
  forall st, foldl (save within) st updates = st.
Proof.
  intros Hq. induction updates as [|e updates IH]; intros st; [done|].
  simpl. unfold save at 2. by rewrite Hq, IH.
Qed.

(** [updateState] with an update whose keys are all different, as the
    properties of an object are.  In state, each key of the update holds
    the value given, and the other keys are kept.  In a browser that takes
    every write, a reload finds under a key of the initial state the JSON
    value the update gave, or the initial value where the update gave
    [undefined], and under a key the update did not name what a reload
    would have found before.  In a browser that takes no write, a reload
    finds what it would have found before, whatever the state shows.  And
    a key that the initial state does not have is never loaded. *)
Theorem updateState_then_load (updates : list (string * Value)) (g : Group) (key : string) :
  NoDup updates.*1 ->
  let g' := updateState updates g in
  (forall v, (key, v) ∈ updates -> state g' !! key = Some v) /\
  (key ∉ updates.*1 -> state g' !! key = state g !! key) /\
  ((forall st, capacity g st = true) ->
   (forall v initial,
      (key, v) ∈ updates -> initialState !! key = Some initial ->
      load (stored g') !! key
      = Some match v with Some j => Some j | None => initial end) /\
   (key ∉ updates.*1 -> load (stored g') !! key = load (stored g) !! key)) /\
  ((forall st, capacity g st = false) -> load (stored g') = load (stored g)) /\
  (initialState !! key = None -> load (stored g') !! key = None).
Proof.
  intros Hnd g'. subst g'. unfold updateState. cbn [state stored].
  destruct (foldl_insert_lookup id id updates key (state g) Hnd) as [Hs1 Hs2].
  split; [exact Hs1|]. split; [exact Hs2|]. split; [|split].
  - intros Hq. rewrite foldl_save_all by done.
    destruct (foldl_insert_lookup prefixed stringify updates key (stored g) Hnd)
      as [Hw1 Hw2].
    simpl in Hw1, Hw2. split.
    + intros v initial Hv Hi. rewrite load_lookup, Hi. simpl. f_equal.
      unfold loaded. rewrite (Hw1 v Hv). by destruct v.
    + intros Hnot. rewrite !load_lookup.
      destruct (initialState !! key) as [initial|]; [|done].
      simpl. f_equal. unfold loaded. by rewrite (Hw2 Hnot).
  - intros Hq. by rewrite foldl_save_none.
  - intros Hi. by rewrite load_lookup, Hi.
Qed.

(** A reload after [clearState] gives the initial state. *)
Theorem clearState_then_load (g : Group) :
  load (stored (clearState g)) = initialState.
Proof.
  apply map_eq. intros key. rewrite load_lookup.
  destruct (initialState !! key) as [initial|] eqn:Hi; [|done].
  simpl. f_equal. unfold loaded.
  rewrite (proj2 (map_lookup_filter_None _ _ _)); [done|].
  right. intros item _ Hkeep. apply (Hkeep key); [|done].
  apply elem_of_dom. by eexists.
Qed.

End Group.

(** The settings of the example: a unit and a language. *)
Definition settings : gmap string Value :=
  {[ "unit" := Some (JStr "celsius"); "language" := Some (JStr "en") ]}.

Lemma updateState_then_load_witness :
  let g := {| state := settings; stored := ∅; capacity := unlimited |} in
  let g' := updateState "prefs" [("unit", Some (JStr "fahrenheit"))] g in
  (forall v, ("unit", v) ∈ [("unit", Some (JStr "fahrenheit"))] ->
     state g' !! "unit" = Some v) /\
  ("unit" ∉ [("unit", Some (JStr "fahrenheit"))].*1 ->
     state g' !! "unit" = state g !! "unit") /\
  ((forall st, capacity g st = true) ->
   (forall v initial,
      ("unit", v) ∈ [("unit", Some (JStr "fahrenheit"))] ->
      settings !! "unit" = Some initial ->
      load "prefs" settings (stored g') !! "unit"
      = Some match v with Some j => Some j | None => initial end) /\
   ("unit" ∉ [("unit", Some (JStr "fahrenheit"))].*1 ->
      load "prefs" settings (stored g') !! "unit"
      = load "prefs" settings (stored g) !! "unit")) /\
  ((forall st, capacity g st = false) ->
     load "prefs" settings (stored g') = load "prefs" settings (stored g)) /\
  (settings !! "unit" = None -> load "prefs" settings (stored g') !! "unit" = None).
Proof.
  apply (updateState_then_load "prefs" settings [("unit", Some (JStr "fahrenheit"))]
           {| state := settings; stored := ∅; capacity := unlimited |} "unit").
  simpl. apply NoDup_singleton.
Defined.

(** With the storage full, the unit changes on the screen and a reload
    brings the old one back. *)
Example updateState_storage_full :
  let g := {| state := settings; stored := ∅; capacity := fun _ => false |} in
  let g' := updateState "prefs" [("unit", Some (JStr "fahrenheit"))] g in
  state g' !! "unit" = Some (Some (JStr "fahrenheit")) /\
  load "prefs" settings (stored g') !! "unit" = Some (Some (JStr "celsius")).
Proof. split; reflexivity. Qed.

End CachePersistence.

(** ** The forecast transformer ([transformForecastItem], [getForecast]) *)

Module Forecast.

Import Transformer.

(** The part of an item of [OpenWeatherForecastResponse.list] that the
    transformer reads. *)
Module Item.

Record Main := {
  temp : Q;
  pressure : Q;
  humidity : Q;
}.

Record Wind := {
  speed : Q;
  deg : option Q;
}.

(** [rain] and [snow]: the amount under the key ["3h"]. *)
Record Precipitation := { three_hours : option Q }.

Record t := {
  dt : Z;
  main : Main;
  weather : option (list Response.Weather);
  clouds_all : Q;
  wind : Wind;
  visibility : option Q;
  pop : option Q;
  rain : option Precipitation;
  snow : option Precipitation;
}.

End Item.

(** [ForecastData], with the properties [transformForecastItem] sets. *)
Record ForecastData := {
  f_dt : Z;
  f_temperature : Q;
  f_condition : string;
  f_humidity : Q;
  f_windSpeed : Q;
  f_cloudCover : Q;
  f_pressure : Q;
  f_icon : option string;
  f_precipitation : option Q;
  f_windDirection : option Q;
  f_visibility : option Q;
  f_precipitationAmount : option Q;
}.

(** [(item.rain?.["3h"] || 0) + (item.snow?.["3h"] || 0)]. *)
Definition amount_sum (item : Item.t) : Q :=
  (or_zero (Item.rain item ≫= Item.three_hours)
   + or_zero (Item.snow item ≫= Item.three_hours))%Q.

(** [transformForecastItem(item)]. *)
Definition transformForecastItem (item : Item.t) : string + ForecastData :=
  match Item.weather item ≫= head with
  | None => inl "Invalid forecast data: missing weather information"
  | Some weather =>
      let precipitationAmount := amount_sum item in
      inr {|
        f_dt := Item.dt item;
        f_temperature := Item.temp (Item.main item);
        f_condition := Response.description weather;
        f_humidity := Item.humidity (Item.main item);
        f_windSpeed := Item.speed (Item.wind item);
        f_cloudCover := Item.clouds_all item;
        f_pressure := Item.pressure (Item.main item);
        f_icon := truthy_text (Response.icon weather);
        f_precipitation := (fun p => p * 100)%Q <$> Item.pop item;
        f_windDirection := Item.deg (Item.wind item);
        f_visibility := (fun v => v / 1000)%Q <$> Item.visibility item;
        f_precipitationAmount :=
          if positive precipitationAmount then Some precipitationAmount else None;
      |}
  end.

(** [data.list.map((item) => this.transformForecastItem(item))]: the
    first item that throws ends the whole map. *)
Fixpoint transformForecast (items : list Item.t) : string + list ForecastData :=
  match items with
  | [] => inr []
  | item :: items =>
      match transformForecastItem item with
      | inl message => inl message
      | inr forecast =>
          match transformForecast items with
          | inl message => inl message
          | inr forecasts => inr (forecast :: forecasts)
          end
      end
  end.

(** An item has a weather element. *)
Definition has_weather (item : Item.t) : Prop := is_Some (Item.weather item ≫= head).

(** *** Sample data *)

Definition dry (time : Z) : Item.t :=
  {| Item.dt := time;
     Item.main := {| Item.temp := 18; Item.pressure := 1010; Item.humidity := 55 |};
     Item.weather := Some [clear_sky];
     Item.clouds_all := 0;
     Item.wind := {| Item.speed := 2; Item.deg := Some 0%Q |};
     Item.visibility := Some 10000%Q;
     Item.pop := Some 0%Q;
     Item.rain := None;
     Item.snow := None |}.

Definition without_weather (time : Z) : Item.t :=
  {| Item.dt := time;
     Item.main := {| Item.temp := 18; Item.pressure := 1010; Item.humidity := 55 |};
     Item.weather := Some [];
     Item.clouds_all := 0;
     Item.wind := {| Item.speed := 2; Item.deg := None |};
     Item.visibility := None;
     Item.pop := None;
     Item.rain := None;
     Item.snow := None |}.

Example one_bad_item_fails_all :
  transformForecast [dry 1; without_weather 2; dry 3]
  = inl "Invalid forecast data: missing weather information".
Proof. reflexivity. Qed.

(** *** Properties *)

Lemma transformForecastItem_inr (item : Item.t) :
  has_weather item -> exists forecast, transformForecastItem item = inr forecast.
Proof.
  intros [weather Hw]. unfold transformForecastItem. rewrite Hw. by eexists.
Qed.

Lemma transformForecastItem_inl (item : Item.t) (message : string) :
  transformForecastItem item = inl message ->
  ~ has_weather item /\
  message = "Invalid forecast data: missing weather information".
Proof.
  unfold transformForecastItem, has_weather.
  destruct (Item.weather item ≫= head); [done|].
  intros [= <-]. split; [|done]. by intros [? ?].
Qed.

(** The forecast is all or nothing.  When every item has a weather
    element the list is transformed item by item, in order and with
    nothing dropped; when one item has none the whole forecast fails with
    "Invalid forecast data: missing weather information". *)
Theorem transformForecast_all_or_nothing (items : list Item.t) :
  (Forall has_weather items ->
   exists forecasts,
     transformForecast items = inr forecasts /\
     length forecasts = length items /\
     forall i item, items !! i = Some item ->
       exists forecast,
         forecasts !! i = Some forecast /\ transformForecastItem item = inr forecast) /\
  (~ Forall has_weather items ->
   transformForecast items = inl "Invalid forecast data: missing weather information").
Proof.
  induction items as [|item items [IH1 IH2]]; split.
  - intros _. exists []. repeat split. intros i item Hi. done.
  - intros H. destruct H. constructor.
  - intros H. apply Forall_cons in H as [Hw Hall].
    destruct (transformForecastItem_inr item Hw) as [forecast Hf].
    destruct (IH1 Hall) as (forecasts & Hfs & Hlen & Hith).
    exists (forecast :: forecasts). simpl. rewrite Hf, Hfs.
    split; [done|]. split; [by rewrite Hlen|].
    intros [|i] it Hi; simpl in *.
    + injection Hi as <-. by exists forecast.
    + by apply Hith.
  - intros Hnot. simpl. destruct (transformForecastItem item) as [message|forecast] eqn:Hf.
    + by apply transformForecastItem_inl in Hf as [_ ->].
    + rewrite IH2; [done|]. intros Hall. apply Hnot. apply Forall_cons. split; [|done].
      unfold has_weather. unfold transformForecastItem in Hf.
      destruct (Item.weather item ≫= head); [by eexists|done].
Qed.

(** In a forecast item the chance of precipitation is kept whenever the
    source has it, a chance of zero included, as a percentage; the amount
    of precipitation is the sum of the three-hour rain and snow amounts
    and is set only when that sum is positive. *)
Theorem transformForecastItem_precipitation (item : Item.t) (forecast : ForecastData) :
  transformForecastItem item = inr forecast ->
  f_precipitation forecast = (fun p => p * 100)%Q <$> Item.pop item /\
  (Item.pop item = Some 0%Q -> f_precipitation forecast = Some (0 * 100)%Q) /\
  (forall a, f_precipitationAmount forecast = Some a ->
             a = amount_sum item /\ (0 < a)%Q) /\
  (f_precipitationAmount forecast = None -> (amount_sum item <= 0)%Q).
Proof.
  unfold transformForecastItem.
  destruct (Item.weather item ≫= head); [|done].
  intros [= <-]. simpl. split; [done|]. split; [by intros ->|]. split.
  - intros a. destruct (positive (amount_sum item)) eqn:E; [|done].
    intros [= <-]. split; [done|]. by apply positive_spec.
  - destruct (positive (amount_sum item)) eqn:E; [done|]. intros _.
    apply Qnot_lt_le. intros Hlt. apply positive_spec in Hlt. congruence.
Qed.

Lemma transformForecastItem_precipitation_witness :
  exists forecast,
    transformForecastItem (dry 1) = inr forecast /\
    f_precipitation forecast = Some (0 * 100)%Q /\
    f_precipitationAmount forecast = None.
Proof.
  eexists. split; [reflexivity|].
  destruct (transformForecastItem_precipitation (dry 1) _ eq_refl) as (H1 & H2 & _).
  split; [exact (H2 eq_refl)|reflexivity].
Defined.

End Forecast.

(** ** The places service: pure helpers of [PlacesApiService] *)

Module Places.

(** An element of [PlaceDetails.address_components]. *)
Record AddressComponent := {
  long_name : string;
  short_name : string;
  types : list string;
}.

(** What [extractLocationComponents] returns. *)
Record Location := {
  country : string;
  countryCode : string;
  state : option string;
  city : string;
}.

(** [component.types.includes(t)]. *)
Definition has_type (t : string) (component : AddressComponent) : bool :=
  existsb (String.eqb t) (types component).

(** The body of the [for] loop of [extractLocationComponents] on the
    four variables. *)
Definition visit (found : Location) (component : AddressComponent) : Location :=
  if has_type "country" component
  then {| country := long_name component; countryCode := short_name component;
          state := state found; city := city found |}
  else if has_type "administrative_area_level_1" component
  then {| country := country found; countryCode := countryCode found;
          state := Some (long_name component); city := city found |}
  else if has_type "locality" component
          || has_type "administrative_area_level_2" component
  then if String.eqb (city found) ""
       then {| country := country found; countryCode := countryCode found;
               state := state found; city := long_name component |}
       else found
  else found.

(** [extractLocationComponents(addressComponents)]. *)
Definition extractLocationComponents (addressComponents : list AddressComponent)
  : Location :=
  foldl visit {| country := ""; countryCode := ""; state := None; city := "" |}
        addressComponents.

(** The three kinds of component the loop tells apart, as its [else if]
    chain does: a country; a first-level area that is no country; a
    locality or second-level area that is neither. *)
Definition is_country (c : AddressComponent) : bool := has_type "country" c.

Definition is_state (c : AddressComponent) : bool :=
  negb (has_type "country" c) && has_type "administrative_area_level_1" c.

Definition is_city (c : AddressComponent) : bool :=
  negb (has_type "country" c) && negb (has_type "administrative_area_level_1" c)
  && (has_type "locality" c || has_type "administrative_area_level_2" c).

Definition named (c : AddressComponent) : bool := negb (String.eqb (long_name c) "").

(** *** Properties *)

Lemma last_filter_cons {A : Type} (p : A -> bool) (x : A) (l : list A) :
  last (List.filter p (x :: l))
  = match last (List.filter p l) with
    | Some y => Some y
    | None => if p x then Some x else None
    end.
Proof.
  simpl. destruct (p x); [|by destruct (last (List.filter p l))].
  rewrite last_cons. by destruct (last (List.filter p l)).
Qed.

Lemma foldl_visit (found : Location) (cs : list AddressComponent) :
  foldl visit found cs
  = {| country := default (country found) (long_name <$> last (List.filter is_country cs));
       countryCode :=
         default (countryCode found) (short_name <$> last (List.filter is_country cs));
       state := match last (List.filter is_state cs) with
                | Some c => Some (long_name c)
                | None => state found
                end;
       city := if String.eqb (city found) ""
               then default "" (long_name <$>
                                head (List.filter named (List.filter is_city cs)))
               else city found |}.
Proof.
  revert found. induction cs as [|c cs IH]; intros found.
  - simpl. destruct found as [? ? ? ci]. simpl.
    by destruct (String.eqb_spec ci "") as [->|].
  - cbn [foldl]. rewrite IH, !last_filter_cons. clear IH. cbn [List.filter].
    generalize (last (List.filter is_country cs)) as last_country.
    generalize (last (List.filter is_state cs)) as last_state.
    generalize (List.filter is_city cs) as candidates.
    intros candidates last_state last_country.
    unfold visit, is_country, is_state, is_city, named.
    destruct (has_type "country" c), (has_type "administrative_area_level_1" c),
      (has_type "locality" c), (has_type "administrative_area_level_2" c),
      last_country, last_state; simpl;
      destruct (String.eqb (city found) "") eqn:Hc; simpl; rewrite ?Hc; simpl;
      try done;
      destruct (String.eqb (long_name c) "") eqn:Hn; simpl; rewrite ?Hc, ?Hn;
      done.
Qed.

(** What [extractLocationComponents] finds.  The country and its code
    are the long and the short name of the last component typed as
    country, and empty without one.  The state is the long name of the
    last first-level area that is not typed as country, and absent without
    one.  The city is the first non-empty long name among the localities
    and second-level areas that are typed neither as country nor as
    first-level area, and empty without one. *)
Theorem extractLocationComponents_finds (cs : list AddressComponent) :
  let found := extractLocationComponents cs in
  country found = default "" (long_name <$> last (List.filter is_country cs)) /\
  countryCode found = default "" (short_name <$> last (List.filter is_country cs)) /\
  state found = long_name <$> last (List.filter is_state cs) /\
  city found
  = default "" (long_name <$> head (List.filter named (List.filter is_city cs))).
Proof.
  unfold extractLocationComponents. rewrite foldl_visit. simpl.
  repeat split; by destruct (last (List.filter is_state cs)).
Qed.

Example extract_paris :
  extractLocationComponents
    [ {| long_name := "Paris"; short_name := "Paris"; types := ["locality"; "political"] |};
      {| long_name := "Paris"; short_name := "Paris";
         types := ["administrative_area_level_2"; "political"] |};
      {| long_name := "Ile-de-France"; short_name := "IDF";
         types := ["administrative_area_level_1"; "political"] |};
      {| long_name := "France"; short_name := "FR"; types := ["country"; "political"] |} ]
  = {| country := "France"; countryCode := "FR"; state := Some "Ile-de-France";
       city := "Paris" |}.
Proof. reflexivity. Qed.

(** *** Highlighting the matches *)

(** An element of [matched_substrings]. *)
Module Match.
Record t := { offset : Z; length : Z }.
End Match.

Section Highlight.

(** A text is the list of its code units; [unit_of] gives the code unit
    of an ASCII character. *)
Context {U : Type}.
Variable unit_of : Ascii.ascii -> U.

Definition units (s : string) : list U := unit_of <$> String.list_ascii_of_string s.

(** [text.slice(start, end)]; [end_] is [None] when it is left out. *)
Definition slice (text : list U) (start : Z) (end_ : option Z) : list U :=
  let from := CityOps.splice_start start (length text) in
  let to := match end_ with
            | Some e => CityOps.splice_start e (length text)
            | None => length text
            end in
  take (to - from) (drop from text).

(** The callback of [matches.forEach] on the variables [highlighted] and
    [offset]. *)
Definition mark (vars : list U * Z) (m : Match.t) : list U * Z :=
  let '(highlighted, offset) := vars in
  let start := Match.offset m + offset in
  let end_ := start + Match.length m in
  let before := slice highlighted 0 (Some start) in
  let matched := slice highlighted start (Some end_) in
  let after := slice highlighted end_ None in
  (before ++ units "<mark>" ++ matched ++ units "</mark>" ++ after, offset + 13).

(** [highlightMatches(text, matches)]; [matches] is [None] when it is
    [undefined]. *)
Definition highlightMatches (text : list U) (matches : option (list Match.t)) : list U :=
  match matches with
  | None | Some [] => text
  | Some ms => (foldl mark (text, 0) ms).1
  end.

(** The text from position [p] on, each match wrapped in the two
    marks and the text between the matches kept. *)
Fixpoint wrapped (p : nat) (text : list U) (ms : list Match.t) : list U :=
  match ms with
  | [] => drop p text
  | m :: ms =>
      let o := Z.to_nat (Match.offset m) in
      let n := Z.to_nat (Match.length m) in
      take (o - p) (drop p text) ++ units "<mark>" ++ take n (drop o text)
      ++ units "</mark>" ++ wrapped (o + n) text ms
  end.

(** The matches come in increasing order, do not overlap, start at [p]
    or after and end at [bound] or before. *)
Fixpoint ordered (p bound : Z) (ms : list Match.t) : Prop :=
  match ms with
  | [] => p <= bound
  | m :: ms =>
      p <= Match.offset m /\ 0 <= Match.length m /\
      ordered (Match.offset m + Match.length m) bound ms
  end.

Lemma ordered_bound (p bound : Z) (ms : list Match.t) : ordered p bound ms -> p <= bound.
Proof.
  revert p. induction ms as [|m ms IH]; intros p; simpl; [done|].
  intros (H1 & H2 & H3). specialize (IH _ H3). lia.
Qed.

Lemma slice_within (l : list U) (a b : Z) :
  0 <= a <= b -> b <= Z.of_nat (length l) ->
  slice l 0 (Some a) = take (Z.to_nat a) l /\
  slice l a (Some b) = take (Z.to_nat b - Z.to_nat a) (drop (Z.to_nat a) l) /\
  slice l b None = drop (Z.to_nat b) l.
Proof.
  intros Hab Hb. unfold slice.
  assert (forall x, 0 <= x <= Z.of_nat (length l) ->
            CityOps.splice_start x (length l) = Z.to_nat x) as Hx.
  { intros x Hr. unfold CityOps.splice_start. destruct (Z.ltb_spec x 0); lia. }
  rewrite !Hx by lia. simpl. rewrite Nat.sub_0_r. repeat split.
  rewrite take_ge; [done|]. rewrite length_drop. lia.
Qed.

Lemma length_marks : length (units "<mark>") = 6%nat /\ length (units "</mark>") = 7%nat.
Proof. unfold units. by rewrite !length_fmap. Qed.

Lemma mark_step (text P : list U) (p : nat) (off : Z) (m : Match.t) :
  0 <= off -> Z.of_nat p <= Match.offset m -> 0 <= Match.length m ->
  Match.offset m + Match.length m <= Z.of_nat (length text) ->
  Z.of_nat (length P) = Z.of_nat p + off ->
  let o := Z.to_nat (Match.offset m) in
  let n := Z.to_nat (Match.length m) in
  let P' := P ++ take (o - p) (drop p text) ++ units "<mark>"
              ++ take n (drop o text) ++ units "</mark>" in
  mark (P ++ drop p text, off) m = (P' ++ drop (o + n) text, off + 13) /\
  Z.of_nat (length P') = Z.of_nat (o + n) + (off + 13).
Proof.
  intros Hoff Hp Hn Hend HP o n P'. subst P'. unfold mark.
  destruct (slice_within (P ++ drop p text) (Match.offset m + off)
              (Match.offset m + off + Match.length m)) as (H1 & H2 & H3);
    [lia|rewrite length_app, length_drop; lia|].
  rewrite H1, H2, H3. clear H1 H2 H3.
  replace (Z.to_nat (Match.offset m + off)) with (length P + (o - p))%nat by lia.
  replace (Z.to_nat (Match.offset m + off + Match.length m) - (length P + (o - p)))%nat
    with n by lia.
  replace (Z.to_nat (Match.offset m + off + Match.length m))
    with (length P + (o - p + n))%nat by lia.
  rewrite take_app_add, !drop_app_add, !drop_drop.
  replace (p + (o - p))%nat with o by lia.
  replace (p + (o - p + n))%nat with (o + n)%nat by lia.
  split; [by rewrite <- !app_assoc|].
  destruct length_marks as [Ho Hc].
  rewrite !length_app, !length_take, !length_drop, Ho, Hc. lia.
Qed.

Lemma foldl_mark (text : list U) (ms : list Match.t) :
  forall (p : nat) (off : Z) (P : list U),
    0 <= off ->
    ordered (Z.of_nat p) (Z.of_nat (length text)) ms ->
    Z.of_nat (length P) = Z.of_nat p + off ->
    (foldl mark (P ++ drop p text, off) ms).1 = P ++ wrapped p text ms.
Proof.
  induction ms as [|m ms IH]; intros p off P Hoff Hord HP; [done|].
  destruct Hord as (Hp & Hn & Hrest).
  pose proof (ordered_bound _ _ _ Hrest) as Hend.
  destruct (mark_step text P p off m Hoff Hp Hn Hend HP) as [Hstep HP'].
  cbn [foldl]. rewrite Hstep.
  rewrite IH; [|lia| |done].
  - cbn [wrapped]. by rewrite <- !app_assoc.
  - by replace (Z.of_nat (Z.to_nat (Match.offset m) + Z.to_nat (Match.length m)))
      with (Match.offset m + Match.length m) by lia.
Qed.

(** For matches that come in increasing order, do not overlap and lie
    within the text, [highlightMatches] keeps the text and wraps each
    matched span in the two marks. *)
Theorem highlightMatches_wraps (text : list U) (ms : list Match.t) :
  ordered 0 (Z.of_nat (length text)) ms ->
  highlightMatches text (Some ms) = wrapped 0 text ms.
Proof.
  intros Hord. destruct ms as [|m ms]; [done|].
  unfold highlightMatches.
  exact (foldl_mark text (m :: ms) 0%nat 0 [] (Z.le_refl 0) Hord eq_refl).
Qed.

End Highlight.

Definition spans (l : list (Z * Z)) : list Match.t :=
  (fun s => {| Match.offset := s.1; Match.length := s.2 |}) <$> l.

Example highlight_two_matches :
  String.string_of_list_ascii
    (highlightMatches (fun a => a) (String.list_ascii_of_string "San Francisco")
       (Some (spans [(0, 3); (4, 2)])))
  = "<mark>San</mark> <mark>Fr</mark>ancisco".
Proof. reflexivity. Qed.

Example highlight_matches_out_of_order :
  String.string_of_list_ascii
    (highlightMatches (fun a => a) (String.list_ascii_of_string "San Francisco")
       (Some (spans [(4, 2); (0, 3)])))
  = "San <mark>Fr<<mark>/ma</mark>rk>ancisco".
Proof. reflexivity. Qed.

Lemma highlightMatches_wraps_witness :
  highlightMatches (fun a => a) (String.list_ascii_of_string "San Francisco")
    (Some (spans [(0, 3); (4, 2)]))
  = wrapped (fun a => a) 0 (String.list_ascii_of_string "San Francisco") (spans [(0, 3); (4, 2)]).
Proof.
  apply (highlightMatches_wraps (fun a => a) (String.list_ascii_of_string "San Francisco")
           (spans [(0, 3); (4, 2)])).
  simpl. lia.
Defined.

End Places.
